(** * Duplicate track finder: a shallow embedding of [duplicate_track_finder.py]

    The development follows the layout of the Python source: text
    normalisation ([MetadataHandler]), metadata extraction, the deletion
    loop ([FileOperations]), the grouping engine ([DuplicateDetector]) and,
    of the user interface, the rows of the tree view ([_populate_tree]) and
    the survivor policy ([auto_select_longest]).

    Python strings are sequences of Unicode code points, so a [str] is a
    list of code points ([N]).  What the interpreter provides (case mapping,
    normalisation forms, the character classes of [re], number parsing) is
    gathered in the class [Interp]; the program is written over any such
    interpreter, and [latin1] is the interpreter on text over Basic Latin,
    Latin-1 Supplement and the combining marks of the Latin-1 letters, on
    which the program is run. *)

From Stdlib Require Import ZArith NArith QArith Qabs Qround String Ascii List.
From stdpp Require Import base option list gmap sets strings sorting.

#[local] Set Warnings "-clear-no-such-hyp".

Local Open Scope Z_scope.
Local Open Scope nat_scope.
Local Open Scope list_scope.

(** ** Python strings *)

Definition char := N.
Definition str := list N.

(** An ASCII literal as a Python string. *)
Fixpoint py (s : string) : str :=
  match s with
  | EmptyString => []
  | String a s' => N_of_ascii a :: py s'
  end.

Definition chr (a : ascii) : char := N_of_ascii a.

(** A Python [float]: a finite number, an infinity or a nan. *)
Inductive float_value :=
| Finite (q : Q)
| PosInf
| NegInf
| NaN.

(** The interpreter: the parts of the Python runtime the program calls and
    that depend on the Unicode character database or on number syntax. *)
Class Interp := {
  py_lower : str → str;                  (* str.lower() *)
  py_title : str → str;                  (* str.title() *)
  py_isspace : char → bool;              (* str.isspace() on one character; [\s] of re *)
  py_isword : char → bool;               (* [\w] of re *)
  nfkc : str → str;                      (* unicodedata.normalize('NFKC', _) *)
  nfkd : str → str;                      (* unicodedata.normalize('NFKD', _) *)
  re_ignorecase : char → char → bool;    (* a pattern literal against a character under re.IGNORECASE *)
  py_int : str → option Z;               (* int(_); None is ValueError *)
  py_float : str → option float_value    (* float(_); None is ValueError *)
}.

(** ** The interpreter on Basic Latin and Latin-1 Supplement

    The tables below are those of the Unicode character database (version
    14.0) for text over the code points U+0000 to U+00FF and the combining
    marks of the Latin-1 letters: U+0300 to U+0304, U+0308, U+030A and
    U+0327.  The whitespace table is complete.  The normalisation forms
    also cover the letters that are composed of a Latin-1 letter and these
    marks; any other code point is passed through unchanged. *)

Definition in_range (lo hi c : N) : bool := (N.leb lo c && N.leb c hi)%bool.

Definition lower_char (c : char) : char :=
  if in_range 65 90 c then (c + 32)%N
  else if in_range 192 222 c && negb (N.eqb c 215) then (c + 32)%N
  else c.

(** Titlecase mapping; U+00DF maps to two characters. *)
Definition title_char (c : char) : str :=
  if in_range 97 122 c then [(c - 32)%N]
  else if in_range 224 254 c && negb (N.eqb c 247) then [(c - 32)%N]
  else if N.eqb c 223 then [83; 115]%N
  else if N.eqb c 255 then [376]%N
  else if N.eqb c 181 || N.eqb c 956 then [924]%N
  else [c].

Definition is_cased (c : char) : bool :=
  in_range 65 90 c || in_range 97 122 c
  || N.eqb c 170 || N.eqb c 181 || N.eqb c 186
  || in_range 192 214 c || in_range 216 246 c || in_range 248 255 c
  || N.eqb c 956.

(** [str.title()]: a cased character is title-cased after an uncased one
    and lower-cased after a cased one. *)
Fixpoint title_from (previous_is_cased : bool) (s : str) : str :=
  match s with
  | [] => []
  | c :: s' =>
      (if previous_is_cased then [lower_char c] else title_char c)
        ++ title_from (is_cased c) s'
  end.

Definition is_space (c : char) : bool :=
  in_range 9 13 c || in_range 28 32 c || N.eqb c 133 || N.eqb c 160
  || N.eqb c 5760 || in_range 8192 8202 c || N.eqb c 8232 || N.eqb c 8233
  || N.eqb c 8239 || N.eqb c 8287 || N.eqb c 12288.

Definition is_word (c : char) : bool :=
  in_range 48 57 c || in_range 65 90 c || in_range 97 122 c || N.eqb c 95
  || N.eqb c 170 || N.eqb c 178 || N.eqb c 179 || N.eqb c 181
  || in_range 185 186 c || in_range 188 190 c
  || in_range 192 214 c || in_range 216 246 c || in_range 248 255 c
  || N.eqb c 956.

(** Compatibility decompositions of Latin-1. *)
Definition compat_char (c : char) : option str :=
  match c with
  | 160 => Some [32]
  | 168 => Some [32; 776]
  | 170 => Some [97]
  | 175 => Some [32; 772]
  | 178 => Some [50]
  | 179 => Some [51]
  | 180 => Some [32; 769]
  | 181 => Some [956]
  | 184 => Some [32; 807]
  | 185 => Some [49]
  | 186 => Some [111]
  | 188 => Some [49; 8260; 52]
  | 189 => Some [49; 8260; 50]
  | 190 => Some [51; 8260; 52]
  | _ => None
  end%N.

(** The canonical compositions [(first, mark, composed)] of a letter with
    one of the marks, closed under composition from the Latin-1 letters;
    the canonical decomposition of [composed] is the pair. *)
Definition composition_table : list (N * N * N) :=
  [(65, 768, 192); (65, 769, 193); (65, 770, 194); (65, 771, 195); (65, 772, 256);
   (65, 776, 196); (65, 778, 197); (67, 769, 262); (67, 770, 264); (67, 807, 199);
   (68, 807, 7696); (69, 768, 200); (69, 769, 201); (69, 770, 202); (69, 771, 7868);
   (69, 772, 274); (69, 776, 203); (69, 807, 552); (71, 769, 500); (71, 770, 284);
   (71, 772, 7712); (71, 807, 290); (72, 770, 292); (72, 776, 7718); (72, 807, 7720);
   (73, 768, 204); (73, 769, 205); (73, 770, 206); (73, 771, 296); (73, 772, 298);
   (73, 776, 207); (74, 770, 308); (75, 769, 7728); (75, 807, 310); (76, 769, 313);
   (76, 807, 315); (77, 769, 7742); (78, 768, 504); (78, 769, 323); (78, 771, 209);
   (78, 807, 325); (79, 768, 210); (79, 769, 211); (79, 770, 212); (79, 771, 213);
   (79, 772, 332); (79, 776, 214); (80, 769, 7764); (82, 769, 340); (82, 807, 342);
   (83, 769, 346); (83, 770, 348); (83, 807, 350); (84, 807, 354); (85, 768, 217);
   (85, 769, 218); (85, 770, 219); (85, 771, 360); (85, 772, 362); (85, 776, 220);
   (85, 778, 366); (86, 771, 7804); (87, 768, 7808); (87, 769, 7810); (87, 770, 372);
   (87, 776, 7812); (88, 776, 7820); (89, 768, 7922); (89, 769, 221); (89, 770, 374);
   (89, 771, 7928); (89, 772, 562); (89, 776, 376); (90, 769, 377); (90, 770, 7824);
   (97, 768, 224); (97, 769, 225); (97, 770, 226); (97, 771, 227); (97, 772, 257);
   (97, 776, 228); (97, 778, 229); (99, 769, 263); (99, 770, 265); (99, 807, 231);
   (100, 807, 7697); (101, 768, 232); (101, 769, 233); (101, 770, 234); (101, 771, 7869);
   (101, 772, 275); (101, 776, 235); (101, 807, 553); (103, 769, 501); (103, 770, 285);
   (103, 772, 7713); (103, 807, 291); (104, 770, 293); (104, 776, 7719); (104, 807, 7721);
   (105, 768, 236); (105, 769, 237); (105, 770, 238); (105, 771, 297); (105, 772, 299);
   (105, 776, 239); (106, 770, 309); (107, 769, 7729); (107, 807, 311); (108, 769, 314);
   (108, 807, 316); (109, 769, 7743); (110, 768, 505); (110, 769, 324); (110, 771, 241);
   (110, 807, 326); (111, 768, 242); (111, 769, 243); (111, 770, 244); (111, 771, 245);
   (111, 772, 333); (111, 776, 246); (112, 769, 7765); (114, 769, 341); (114, 807, 343);
   (115, 769, 347); (115, 770, 349); (115, 807, 351); (116, 776, 7831); (116, 807, 355);
   (117, 768, 249); (117, 769, 250); (117, 770, 251); (117, 771, 361); (117, 772, 363);
   (117, 776, 252); (117, 778, 367); (118, 771, 7805); (119, 768, 7809); (119, 769, 7811);
   (119, 770, 373); (119, 776, 7813); (119, 778, 7832); (120, 776, 7821); (121, 768, 7923);
   (121, 769, 253); (121, 770, 375); (121, 771, 7929); (121, 772, 563); (121, 776, 255);
   (121, 778, 7833); (122, 769, 378); (122, 770, 7825); (168, 768, 8173); (168, 769, 901);
   (194, 768, 7846); (194, 769, 7844); (194, 771, 7850); (196, 772, 478); (197, 769, 506);
   (198, 769, 508); (198, 772, 482); (199, 769, 7688); (202, 768, 7872); (202, 769, 7870);
   (202, 771, 7876); (207, 769, 7726); (212, 768, 7890); (212, 769, 7888); (212, 771, 7894);
   (213, 769, 7756); (213, 772, 556); (213, 776, 7758); (214, 772, 554); (216, 769, 510);
   (220, 768, 475); (220, 769, 471); (220, 772, 469); (226, 768, 7847); (226, 769, 7845);
   (226, 771, 7851); (228, 772, 479); (229, 769, 507); (230, 769, 509); (230, 772, 483);
   (231, 769, 7689); (234, 768, 7873); (234, 769, 7871); (234, 771, 7877); (239, 769, 7727);
   (244, 768, 7891); (244, 769, 7889); (244, 771, 7895); (245, 769, 7757); (245, 772, 557);
   (245, 776, 7759); (246, 772, 555); (248, 769, 511); (252, 768, 476); (252, 769, 472);
   (252, 772, 470); (274, 768, 7700); (274, 769, 7702); (275, 768, 7701); (275, 769, 7703);
   (332, 768, 7760); (332, 769, 7762); (333, 768, 7761); (333, 769, 7763); (360, 769, 7800);
   (361, 769, 7801); (362, 776, 7802); (363, 776, 7803)]%N.

Definition composite (first second : char) : option char :=
  match find (λ x, N.eqb x.1.1 first && N.eqb x.1.2 second) composition_table with
  | Some x => Some x.2
  | None => None
  end.

Definition canon_pair (c : char) : option (char * char) :=
  match find (λ x, N.eqb x.2 c) composition_table with
  | Some x => Some x.1
  | None => None
  end.

(** The full compatibility decomposition of one character. *)
Fixpoint decompose_char (fuel : nat) (c : char) : str :=
  match fuel with
  | O => [c]
  | S fuel' =>
      match compat_char c with
      | Some d => d
      | None =>
          match canon_pair c with
          | Some (first, second) => decompose_char fuel' first ++ [second]
          | None => [c]
          end
      end
  end.

Definition decompose (s : str) : str := s ≫= decompose_char 4.

(** The canonical combining class: 202 for the cedilla, 230 for the marks
    above, 0 for a starter. *)
Definition combining_class (c : char) : N :=
  if N.eqb c 807 then 202%N
  else if bool_decide (c ∈ [768; 769; 770; 771; 772; 776; 778]%N) then 230%N
  else 0%N.

(** The canonical ordering: in a run of marks, a mark moves before the
    marks of a greater class, the order of equal classes being kept. *)
Fixpoint insert_mark (c : char) (s : str) : str :=
  match s with
  | x :: s' =>
      if negb (N.eqb (combining_class x) 0) && (combining_class x <? combining_class c)%N
      then x :: insert_mark c s'
      else c :: s
  | [] => [c]
  end.

Definition canonical_order (s : str) : str :=
  foldr (λ c out, if N.eqb (combining_class c) 0 then c :: out else insert_mark c out) [] s.

(** The canonical composition: a character combines with the last starter
    when the pair has a composite and no character of an equal or greater
    class stands between them.  [pending] holds, in reverse, what follows
    the starter and did not combine; [last_class] is the class of its last
    character, 0 when there is none. *)
Fixpoint compose_from (starter : char) (pending : str) (last_class : N) (s : str) : str :=
  match s with
  | [] => starter :: reverse pending
  | c :: s' =>
      let cls := combining_class c in
      match (if (last_class <? cls)%N || N.eqb last_class 0
             then composite starter c else None) with
      | Some k => compose_from k pending last_class s'
      | None =>
          if N.eqb cls 0 then (starter :: reverse pending) ++ compose_from c [] 0%N s'
          else compose_from starter (c :: pending) cls s'
      end
  end.

Fixpoint compose (s : str) : str :=
  match s with
  | [] => []
  | c :: s' =>
      if N.eqb (combining_class c) 0 then compose_from c [] 0%N s'
      else c :: compose s'
  end.

(** NFKD: decomposition and canonical ordering. *)
Definition nfkd_latin1 (s : str) : str := canonical_order (decompose s).

(** NFKC: NFKD followed by the canonical composition. *)
Definition nfkc_latin1 (s : str) : str := compose (nfkd_latin1 s).

(** *** Number syntax *)

(** [round(q)]: to the nearest integer, a tie to the even one. *)
Definition py_round (q : Q) : Z :=
  let f := Qfloor q in
  match Qcompare (Qminus q (inject_Z f)) (Qmake 1 2) with
  | Lt => f
  | Gt => (f + 1)%Z
  | Eq => if Z.even f then f else (f + 1)%Z
  end.

(** The whitespace that [int] and [float] strip around a literal: the
    ASCII whitespace and the whitespace above U+007F (the separators
    U+001C to U+001F are not stripped). *)
Definition number_space (c : char) : bool :=
  in_range 9 13 c || N.eqb c 32 || (N.leb 128 c && is_space c).

Fixpoint drop_spaces (s : str) : str :=
  match s with
  | c :: s' => if number_space c then drop_spaces s' else s
  | [] => []
  end.

Definition strip_number (s : str) : str :=
  reverse (drop_spaces (reverse (drop_spaces s))).

Definition digit_val (c : char) : option Z :=
  if in_range 48 57 c then Some (Z.of_N c - 48)%Z else None.

Definition parse_sign (s : str) : bool * str :=
  match s with
  | 45%N :: s' => (true, s')
  | 43%N :: s' => (false, s')
  | _ => (false, s)
  end.

(** Decimal digits with single underscores between digits. *)
Fixpoint parse_digits (acc : Z) (after_digit : bool) (s : str) : option Z :=
  match s with
  | [] => if after_digit then Some acc else None
  | c :: s' =>
      match digit_val c with
      | Some d => parse_digits (acc * 10 + d)%Z true s'
      | None =>
          if N.eqb c 95 && after_digit
          then match s' with
               | c' :: _ => if in_range 48 57 c' then parse_digits acc false s' else None
               | [] => None
               end
          else None
      end
  end.

(** The default of [sys.get_int_max_str_digits()]: a literal of more
    digits is refused with a [ValueError]. *)
Definition int_max_str_digits : nat := 4300.

(** [int] on a string: optional sign, digits, surrounding whitespace. *)
Definition int_latin1 (s : str) : option Z :=
  let '(negative, digits) := parse_sign (strip_number s) in
  match parse_digits 0 false digits with
  | Some n =>
      if bool_decide (length (filter (λ c, in_range 48 57 c = true) digits) ≤ int_max_str_digits)
      then Some (if negative then (- n)%Z else n)
      else None
  | None => None
  end.

(** The binary64 number nearest to a rational, a tie to the even
    significand; beyond the largest finite number, an infinity. *)
Definition pow2 (k : Z) : Q := Qpower (inject_Z 2) k.

Definition binary64 (q : Q) : float_value :=
  if Qeq_bool q 0 then Finite 0
  else
    let a := Qabs q in
    let e0 := (Z.log2 (Qnum a) - Z.log2 (Zpos (Qden a)))%Z in
    let e := if Qle_bool (pow2 e0) a then e0 else (e0 - 1)%Z in
    let k := Z.max (e - 52) (-1074) in
    let x := Qred (Qmult (inject_Z (py_round (Qdiv a (pow2 k)))) (pow2 k)) in
    if Qle_bool (pow2 1024) x then (if Qle_bool 0 q then PosInf else NegInf)
    else Finite (if Qle_bool 0 q then x else Qopp x).

(** [float] removes the underscores that stand between two digits and
    refuses any other. *)
Fixpoint strip_underscores (prev : option char) (s : str) : option str :=
  match s with
  | [] => Some []
  | c :: s' =>
      if N.eqb c 95 then
        match prev, s' with
        | Some p, c' :: _ =>
            if in_range 48 57 p && in_range 48 57 c' then strip_underscores (Some c) s' else None
        | _, _ => None
        end
      else cons c <$> strip_underscores (Some c) s'
  end.

(** The leading digits of [s]: their value on top of [acc], their number
    on top of [n], and what follows them. *)
Fixpoint take_digits (acc : Z) (n : nat) (s : str) : Z * nat * str :=
  match s with
  | c :: s' =>
      match digit_val c with
      | Some d => take_digits (acc * 10 + d)%Z (S n) s'
      | None => (acc, n, s)
      end
  | [] => (acc, n, [])
  end.

(** What follows the [e] of a literal: optional sign and digits. *)
Definition parse_exponent (s : str) : option Z :=
  let '(negative, s) := parse_sign s in
  match take_digits 0 0 s with
  | (v, S _, []) => Some (if negative then (- v)%Z else v)
  | _ => None
  end.

(** The exact value of an unsigned decimal literal: digits with an optional
    point, at least one digit, and an optional exponent. *)
Definition parse_decimal (s : str) : option Q :=
  let '(int_part, int_digits, s1) := take_digits 0 0 s in
  let '(mantissa, frac_digits, s2) :=
    match s1 with
    | 46%N :: s1' => take_digits int_part 0 s1'
    | _ => (int_part, 0, s1)
    end in
  if bool_decide (int_digits + frac_digits = 0) then None
  else
    match s2 with
    | [] => Some (Qmult (inject_Z mantissa) (Qpower (inject_Z 10) (- Z.of_nat frac_digits)))
    | c :: s3 =>
        if N.eqb c 101 || N.eqb c 69 then
          match parse_exponent s3 with
          | Some e =>
              Some (Qmult (inject_Z mantissa) (Qpower (inject_Z 10) (e - Z.of_nat frac_digits)))
          | None => None
          end
        else None
    end.

Definition ascii_lower (c : char) : char := if in_range 65 90 c then (c + 32)%N else c.

(** [float] on a string. *)
Definition float_latin1 (s : str) : option float_value :=
  match strip_underscores None s with
  | Some s =>
      let '(negative, body) := parse_sign (strip_number s) in
      let name := ascii_lower <$> body in
      if bool_decide (name = py "inf") || bool_decide (name = py "infinity")
      then Some (if negative then NegInf else PosInf)
      else if bool_decide (name = py "nan") then Some NaN
      else
        match parse_decimal body with
        | Some q => Some (binary64 (if negative then Qopp q else q))
        | None => None
        end
  | None => None
  end.

#[local] Instance latin1 : Interp := {|
  py_lower := fmap lower_char;
  py_title := title_from false;
  py_isspace := is_space;
  py_isword := is_word;
  nfkc := nfkc_latin1;
  nfkd := nfkd_latin1;
  re_ignorecase := λ p c, N.eqb (lower_char c) (lower_char p);
  py_int := int_latin1;
  py_float := float_latin1
|}.

Section Strings.
Context `{Interp}.

(** [s.lstrip()], [s.rstrip()] and [s.strip()] with no argument. *)
Fixpoint lstrip (s : str) : str :=
  match s with
  | c :: s' => if py_isspace c then lstrip s' else s
  | [] => []
  end.

Definition rstrip (s : str) : str := reverse (lstrip (reverse s)).
Definition strip (s : str) : str := rstrip (lstrip s).

(** [s.strip(chars)] for a one-character argument. *)
Fixpoint lstrip_char (x : char) (s : str) : str :=
  match s with
  | c :: s' => if N.eqb c x then lstrip_char x s' else s
  | [] => []
  end.

Definition strip_char (x : char) (s : str) : str :=
  reverse (lstrip_char x (reverse (lstrip_char x s))).

(** [s.replace(old, new)] for a one-character [old]. *)
Definition replace_char (old : char) (new : str) (s : str) : str :=
  s ≫= (λ c, if N.eqb c old then new else [c]).

(** [s.split(sep)] for a one-character separator: never empty, and the
    pieces between consecutive separators are kept. *)
Fixpoint split_char (sep : char) (s : str) : list str :=
  match s with
  | [] => [[]]
  | c :: s' =>
      if N.eqb c sep then [] :: split_char sep s'
      else match split_char sep s' with
           | piece :: rest => (c :: piece) :: rest
           | [] => [[c]]
           end
  end.



(** [sep.join(l)]. *)
Fixpoint join (sep : str) (l : list str) : str :=
  match l with
  | [] => []
  | [x] => x
  | x :: l' => x ++ sep ++ join sep l'
  end.

(** [s.encode('ascii', 'ignore').decode('ascii')]: the code points above
    127 are dropped. *)
Definition ascii_ignore (s : str) : str := filter (λ c, (c < 128)%N) s.

(** The order of [<] on strings: by code point, a proper prefix first. *)
Fixpoint str_leb (a b : str) : bool :=
  match a, b with
  | [], _ => true
  | _ :: _, [] => false
  | x :: a', y :: b' => if N.ltb x y then true else if N.ltb y x then false else str_leb a' b'
  end.

Fixpoint insert_sorted (x : str) (l : list str) : list str :=
  match l with
  | [] => [x]
  | y :: l' => if str_leb x y then x :: l else y :: insert_sorted x l'
  end.

(** [sorted(_)] on a set of strings. *)
Definition sorted (X : gset str) : list str := foldr insert_sorted [] (elements X).

(** ** Regular expressions

    The patterns of the source, as syntax trees, and a backtracking matcher
    with the priorities of [re]: the left alternative first, a greedy
    repetition takes as much as it can and gives back, a lazy one takes as
    little as it can. *)

Inductive regex :=
| Chr (p : char → bool)          (* one character: a literal, a class, [\s], [.] *)
| Eps
| Cat (r1 r2 : regex)
| Alt (r1 r2 : regex)
| Star (greedy : bool) (r : regex)
| Bol                            (* [^] *)
| Eol.                           (* [$]: the end, or before a final newline *)

(** [re_match r s bos k]: match [r] at the front of [s] ([bos] tells whether
    [s] starts at the beginning of the subject), then continue with [k] on
    what is left. *)
Fixpoint re_match {A} (r : regex) (s : str) (bos : bool)
    (k : str → bool → option A) : option A :=
  match r with
  | Chr p => match s with
             | c :: s' => if p c then k s' false else None
             | [] => None
             end
  | Eps => k s bos
  | Cat r1 r2 => re_match r1 s bos (λ s' b', re_match r2 s' b' k)
  | Alt r1 r2 => match re_match r1 s bos k with
                 | Some x => Some x
                 | None => re_match r2 s bos k
                 end
  | Star greedy r1 =>
      (fix loop (fuel : nat) (s : str) (bos : bool) : option A :=
         let more :=
           match fuel with
           | O => None
           | S fuel' =>
               re_match r1 s bos
                 (λ s' b', if length s' <? length s then loop fuel' s' b' else None)
           end in
         if greedy
         then match more with Some x => Some x | None => k s bos end
         else match k s bos with Some x => Some x | None => more end)
        (length s) s bos
  | Bol => if bos then k s bos else None
  | Eol => match s with
           | [] => k s bos
           | [10%N] => k s bos
           | _ => None
           end
  end.

(** What is left of [s] after the first-priority match of [r] at its front. *)
Definition match_prefix (r : regex) (s : str) (bos : bool) : option str :=
  re_match r s bos (λ s' _, Some s').

(** [re.sub(r, repl, s)]: the matches are taken from left to right without
    overlap; an empty match is replaced and the scan moves one character. *)
Fixpoint re_sub_loop (fuel : nat) (r : regex) (repl : str) (s : str) (bos : bool) : str :=
  match fuel with
  | O => s
  | S fuel' =>
      match match_prefix r s bos with
      | Some rest =>
          if length rest <? length s
          then repl ++ re_sub_loop fuel' r repl rest false
          else match s with
               | [] => repl
               | c :: s' => repl ++ c :: re_sub_loop fuel' r repl s' false
               end
      | None =>
          match s with
          | [] => []
          | c :: s' => c :: re_sub_loop fuel' r repl s' false
          end
      end
  end.

Definition re_sub (r : regex) (repl : str) (s : str) : str :=
  re_sub_loop (S (length s)) r repl s true.

(** Pattern combinators. *)
Definition lit (a : ascii) : regex := Chr (N.eqb (chr a)).
Definition liti (a : ascii) : regex := Chr (re_ignorecase (chr a)).
Definition one_of (l : list char) : regex := Chr (λ c, bool_decide (c ∈ l)).
Definition none_of (l : list char) : regex := Chr (λ c, negb (bool_decide (c ∈ l))).
Definition ws : regex := Chr py_isspace.
Definition dot : regex := Chr (λ c, negb (N.eqb c 10)).
Definition star (r : regex) : regex := Star true r.
Definition plus (r : regex) : regex := Cat r (Star true r).
Definition opt (r : regex) : regex := Alt r Eps.

Fixpoint seq_of (l : list regex) : regex :=
  match l with
  | [] => Eps
  | [r] => r
  | r :: l' => Cat r (seq_of l')
  end.

Fixpoint alt_of (l : list regex) : regex :=
  match l with
  | [] => Chr (λ _, false)
  | [r] => r
  | r :: l' => Alt r (alt_of l')
  end.

(** A word of the pattern, letter by letter; [wordi] under re.IGNORECASE. *)
Fixpoint word (s : string) : regex :=
  match s with
  | EmptyString => Eps
  | String a EmptyString => lit a
  | String a s' => Cat (lit a) (word s')
  end.

Fixpoint wordi (s : string) : regex :=
  match s with
  | EmptyString => Eps
  | String a EmptyString => liti a
  | String a s' => Cat (liti a) (wordi s')
  end.

End Strings.

(** ** Values, dictionaries and exceptions *)

(** The values the program stores in its metadata dictionaries. *)
Inductive value :=
| VStr (s : str)
| VInt (z : Z)
| VFloat (q : Q)
| VBool (b : bool).

(** A Python [dict] with string keys. *)
Abbreviation dict := (gmap string value).

(** Truth value of an object, as [if v] and [not v] take it. *)
Definition truthy (v : value) : bool :=
  match v with
  | VStr s => negb (bool_decide (s = []))
  | VInt z => negb (Z.eqb z 0)
  | VFloat q => negb (Qeq_bool q 0)
  | VBool b => b
  end.

(** [d.get(key, default)]. *)
Definition dict_get (d : dict) (key : string) (dflt : value) : value :=
  default dflt (d !! key).

Definition as_str (v : value) : option str :=
  match v with VStr s => Some s | _ => None end.

(** The exception classes the handlers of the source tell apart. *)
Inductive exn_kind :=
| PermissionError
| FileNotFoundError
| OSError            (* any other subclass of OSError *)
| ValueError
| OverflowError
| OtherException.    (* any other subclass of Exception *)

#[global] Instance exn_kind_eq_dec : EqDecision exn_kind.
Proof. solve_decision. Defined.

Definition is_OSError (k : exn_kind) : bool :=
  match k with
  | PermissionError | FileNotFoundError | OSError => true
  | _ => false
  end.

(** The result of a call that may raise; [msg] is [str(e)]. *)
Inductive outcome (A : Type) :=
| Return (a : A)
| Raise (k : exn_kind) (msg : str).
Arguments Return {A} a.
Arguments Raise {A} k msg.

(** [os.stat_result], the fields that are read. *)
Record stat_result := {
  st_size : Z;
  st_mtime : Q;
  st_ctime : Q;
  st_birthtime : option Q        (* hasattr(stat, 'st_birthtime') *)
}.

(** A [TinyTag] object, the attributes that are read; [None] is Python's. *)
Record TinyTag := {
  tag_title : option str;
  tag_artist : option str;
  tag_albumartist : option str;
  tag_composer : option str;
  tag_album : option str;
  tag_year : option str;
  tag_genre : option str;
  tag_duration : option Q;
  tag_bitrate : option Q;
  tag_samplerate : option Z;
  tag_channels : option Z
}.

(** The host: the platform, the path library, the file system queries and
    the tag reader, as the program sees them.  A [Path] object is modelled
    by its string form. *)
Class Host := {
  is_windows : bool;                         (* platform.system() == 'Windows' *)
  METADATA_AVAILABLE : bool;                 (* tinytag could be imported *)
  Path : str → str;                          (* str(Path(s)) *)
  path_name : str → str;                     (* Path(s).name *)
  path_suffix : str → str;                   (* Path(s).suffix *)
  path_resolve : str → outcome str;          (* str(Path(s).resolve()) *)
  os_stat : str → outcome stat_result;       (* os.stat *)
  TinyTag_get : str → outcome TinyTag;       (* TinyTag.get *)
  strftime : Q → outcome str                 (* datetime.fromtimestamp(t).strftime('%Y-%m-%d %H:%M:%S') *)
}.

(** ** Printing numbers *)

Definition digit_char (d : Z) : char := Z.to_N (48 + d).

Fixpoint digits_aux (fuel : nat) (n : Z) (acc : str) : str :=
  match fuel with
  | O => acc
  | S fuel' =>
      let acc' := digit_char (n mod 10) :: acc in
      if (n <? 10)%Z then acc' else digits_aux fuel' (n / 10)%Z acc'
  end.

(** [str(n)] for an integer. *)
Definition str_of_Z (n : Z) : str :=
  if (n <? 0)%Z then chr "-" :: digits_aux (S (Z.to_nat (Z.log2 (- n)))) (- n) []
  else digits_aux (S (Z.to_nat (Z.log2 n))) n [].

(** [f"{n:02d}"]. *)
Definition format_02d (n : Z) : str :=
  let s := str_of_Z n in
  if length s <? 2 then chr "0" :: s else s.

(** ** MetadataHandler *)

Section MetadataHandler.
Context `{Interp} `{Host}.

(** The Windows long-path prefix, [\\?\]. *)
Definition long_path_prefix : str := [92; 92; 63; 92]%N.

Fixpoint startswith (p s : str) : bool :=
  match p, s with
  | [], _ => true
  | x :: p', y :: s' => N.eqb x y && startswith p' s'
  | _ :: _, [] => false
  end.

(** [safe_path]: an [OSError] or [ValueError] of the resolution is handled
    by falling back to the plain path; any other exception gets out. *)
Definition safe_path (path_str : str) : outcome str :=
  if is_windows then
    match path_resolve path_str with
    | Return abs_path_str =>
        if (260 <=? length abs_path_str) && negb (startswith long_path_prefix abs_path_str)
        then Return (Path (long_path_prefix ++ abs_path_str))
        else Return (Path abs_path_str)
    | Raise k msg =>
        if is_OSError k || bool_decide (k = ValueError)
        then Return (Path path_str)
        else Raise k msg
    end
  else Return (Path path_str).

Definition lossless_exts : list str :=
  [py ".flac"; py ".wav"; py ".aiff"; py ".dsd"; py ".ape"].

Definition get_audio_quality_indicator (file_path : str) : str :=
  let ext := py_lower (path_suffix file_path) in
  if bool_decide (ext ∈ lossless_exts) then py "Lossless" else py "Lossy".

(** [format_timestamp]: an [OSError], [ValueError] or [OverflowError] of
    the conversion gives ['Unknown']; any other exception gets out. *)
Definition format_timestamp (timestamp : Q) : outcome str :=
  match strftime timestamp with
  | Return s => Return s
  | Raise k msg =>
      if is_OSError k || bool_decide (k = ValueError) || bool_decide (k = OverflowError)
      then Return (py "Unknown")
      else Raise k msg
  end.

(** The patterns of the artist normalisation. *)

(** [^(feat\.?|ft\.?|featuring)\s+], ignoring case *)
Definition feat_words : regex :=
  alt_of [Cat (wordi "feat") (opt (lit "."));
          Cat (wordi "ft") (opt (lit "."));
          wordi "featuring"].
Definition re_feat_prefix : regex := seq_of [Bol; feat_words; plus ws].
(** [\s+(feat\.?|ft\.?|featuring).*$], ignoring case *)
Definition re_feat_suffix : regex := seq_of [plus ws; feat_words; star dot; Eol].
(** [\s+] *)
Definition re_spaces : regex := plus ws.
(** the class of the double quote, the single quote and the backtick *)
Definition re_quotes : regex := one_of [34; 39; 96]%N.
(** [[;,\s]+$] *)
Definition re_trailing_delims : regex :=
  Cat (plus (Chr (λ c, bool_decide (c ∈ py ";,") || py_isspace c))) Eol.
(** [\s*[&+/\\|]\s*] *)
Definition re_symbol_delims : regex :=
  seq_of [star ws; one_of [38; 43; 47; 92; 124]%N; star ws].
(** [\s+(and|feat\.?|ft\.?|vs\.?|versus|x|with)\s+], ignoring case *)
Definition re_word_delims : regex :=
  seq_of [plus ws;
          alt_of [wordi "and";
                  Cat (wordi "feat") (opt (lit "."));
                  Cat (wordi "ft") (opt (lit "."));
                  Cat (wordi "vs") (opt (lit "."));
                  wordi "versus";
                  wordi "x";
                  wordi "with"];
          plus ws].
(** [,+] *)
Definition re_commas : regex := plus (lit ",").
(** [\s*,\s*] *)
Definition re_comma_spaces : regex := seq_of [star ws; lit ","; star ws].
(** [\s*\([^)]*\)] *)
Definition re_parenthetical : regex :=
  seq_of [star ws; lit "("; star (none_of (py ")")); lit ")"].

Definition normalize_single_artist_name (name : str) : str :=
  if bool_decide (name = []) then []
  else
    let name := strip name in
    let name := py_lower name in
    let name := nfkc name in
    let name := ascii_ignore name in
    let name := re_sub re_feat_prefix [] name in
    let name := re_sub re_feat_suffix [] name in
    let name := strip (re_sub re_spaces (py " ") name) in
    let name := re_sub re_quotes [] name in
    let name := replace_char (chr "-") (py " ") (replace_char (chr ".") [] name) in
    let name := strip (re_sub re_spaces (py " ") name) in
    name.

(** The body of the loop over [cleaned.split(',')]: the cleaned name of one
    piece, empty when the piece is skipped or cleans to nothing. *)
Definition clean_artist (artist : str) : str :=
  let artist := strip artist in
  if bool_decide (artist = []) then []
  else
    let artist := re_sub re_feat_prefix [] artist in
    let artist := re_sub re_feat_suffix [] artist in
    let artist := re_sub re_parenthetical [] artist in
    let artist := strip (re_sub re_spaces (py " ") artist) in
    let artist := re_sub re_quotes [] artist in
    let artist := replace_char (chr "-") (py " ") (replace_char (chr ".") [] artist) in
    let artist := strip (re_sub re_spaces (py " ") artist) in
    artist.

(** Steps 1 to 8 of [normalize_artists]: the cleaned, comma-separated string. *)
Definition clean_artist_string (artist_str : str) : str :=
  let cleaned := strip (py_lower artist_str) in
  let cleaned := nfkc cleaned in
  let cleaned := ascii_ignore cleaned in
  let cleaned := re_sub re_trailing_delims [] cleaned in
  let cleaned := replace_char (chr ";") (py ",") cleaned in
  let cleaned := re_sub re_symbol_delims (py ",") cleaned in
  let cleaned := re_sub re_word_delims (py ",") cleaned in
  let cleaned := re_sub re_commas (py ",") cleaned in
  let cleaned := re_sub re_comma_spaces (py ",") cleaned in
  let cleaned := strip (strip_char (chr ",") cleaned) in
  cleaned.

Definition normalize_artists (artist_str : str) : gset str :=
  if bool_decide (artist_str = []) then ∅
  else
    let cleaned := clean_artist_string artist_str in
    if bool_decide (cleaned = []) then ∅
    else
      foldl (λ (artists : gset str) (artist : str),
               let artist := clean_artist artist in
               if bool_decide (artist = []) then artists else artists ∪ {[artist]})
            ∅ (split_char (chr ",") cleaned).



(** One priority level of [extract_comprehensive_artists]: the field is
    used when it is set, non-empty after [strip] and normalises to a
    non-empty set. *)
Definition artists_of_field (field : option str) : option str :=
  match field with
  | Some s =>
      if bool_decide (s = []) then None
      else
        let artist_str := strip s in
        if bool_decide (artist_str = []) then None
        else
          let normalized := normalize_artists artist_str in
          if bool_decide (normalized = ∅) then None
          else Some (join (py ", ") (sorted normalized))
  | None => None
  end.

Definition extract_comprehensive_artists (tag : TinyTag) : str :=
  match artists_of_field (tag_artist tag) with
  | Some result => result
  | None =>
      match artists_of_field (tag_albumartist tag) with
      | Some result => result
      | None =>
          match artists_of_field (tag_composer tag) with
          | Some result => result
          | None => []
          end
      end
  end.

(** [d.update(l)]: the later entries win. *)
Definition dict_update (d : dict) (l : list (string * value)) : dict :=
  foldl (λ d kv, <[kv.1 := kv.2]> d) d l.

(** [x or ''] on an optional string. *)
Definition or_empty (x : option str) : str := default [] x.

(** [x or 0] on an optional number. *)
Definition int_or_0 (x : option Z) : Z := default 0%Z x.

Definition float_or_0 (x : option Q) : value :=
  match x with
  | Some q => if Qeq_bool q 0 then VInt 0 else VFloat q
  | None => VInt 0
  end.

(** The dictionary literal that [extract_file_metadata] starts from. *)
Definition initial_metadata (file_path_str file_path : str) : dict :=
  dict_update ∅
    [("file_path", VStr file_path_str);
     ("filename", VStr (path_name file_path));
     ("size_mb", VInt 0);
     ("size_bytes", VInt 0);
     ("duration_formatted", VStr []);
     ("quality", VStr (get_audio_quality_indicator file_path));
     ("modified_date", VStr (py "Unknown"));
     ("created_date", VStr (py "Unknown"));
     ("title", VStr []);
     ("contributing_artists", VStr []);
     ("album_artist", VStr []);
     ("raw_artists", VStr []);
     ("normalized_artists_debug", VStr []);
     ("success", VBool true)].

(** The body of the inner [try] around [os.stat], after a successful call. *)
Definition stat_fields (metadata : dict) (stat : stat_result) : outcome dict :=
  let metadata := <["size_bytes" := VInt (st_size stat)]> metadata in
  let metadata :=
    <["size_mb" := VInt (py_round (Qdiv (inject_Z (st_size stat)) (inject_Z (1024 * 1024))))]>
      metadata in
  let metadata := <["modified" := VFloat (st_mtime stat)]> metadata in
  match format_timestamp (st_mtime stat) with
  | Raise k msg => Raise k msg
  | Return modified_date =>
      let metadata := <["modified_date" := VStr modified_date]> metadata in
      if is_windows then
        let metadata := <["created" := VFloat (st_ctime stat)]> metadata in
        match format_timestamp (st_ctime stat) with
        | Raise k msg => Raise k msg
        | Return created_date => Return (<["created_date" := VStr created_date]> metadata)
        end
      else
        match st_birthtime stat with
        | Some birthtime =>
            let metadata := <["created" := VFloat birthtime]> metadata in
            match format_timestamp birthtime with
            | Raise k msg => Raise k msg
            | Return created_date => Return (<["created_date" := VStr created_date]> metadata)
            end
        | None =>
            let metadata := <["created" := VFloat (st_mtime stat)]> metadata in
            Return (<["created_date" := dict_get metadata "modified_date" (VStr [])]> metadata)
        end
  end.

(** [f"{minutes}:{seconds:02d}"] for a duration in seconds. *)
Definition format_duration (duration : Q) : str :=
  let minutes := Qfloor (Qdiv duration (inject_Z 60)) in
  let seconds := Qfloor (Qminus duration (inject_Z (60 * minutes))) in
  str_of_Z minutes ++ py ":" ++ format_02d seconds.

(** The body of the [try] around the tag reader, after a successful call. *)
Definition tag_fields (metadata : dict) (tag : TinyTag) : dict :=
  let comprehensive_artists := extract_comprehensive_artists tag in
  let metadata := <["raw_artists" := VStr comprehensive_artists]> metadata in
  let normalized_artists_set := normalize_artists comprehensive_artists in
  let metadata :=
    <["normalized_artists_debug" := VStr (join (py ", ") (sorted normalized_artists_set))]>
      metadata in
  let metadata :=
    dict_update metadata
      [("title", VStr (or_empty (tag_title tag)));
       ("contributing_artists", VStr comprehensive_artists);
       ("album_artist", VStr (or_empty (tag_albumartist tag)));
       ("album", VStr (or_empty (tag_album tag)));
       ("year", VStr (or_empty (tag_year tag)));
       ("genre", VStr (or_empty (tag_genre tag)));
       ("duration", float_or_0 (tag_duration tag));
       ("bitrate", VInt (match tag_bitrate tag with
                         | Some b => if Qeq_bool b 0 then 0%Z else py_round b
                         | None => 0%Z
                         end));
       ("samplerate", VInt (int_or_0 (tag_samplerate tag)));
       ("channels", VInt (int_or_0 (tag_channels tag)))] in
  let metadata := <["artist" := dict_get metadata "contributing_artists" (VStr [])]> metadata in
  match dict_get metadata "duration" (VInt 0) with
  | VFloat duration => <["duration_formatted" := VStr (format_duration duration)]> metadata
  | _ => metadata
  end.

(** The record of the outer [except Exception]. *)
Definition failure_record (file_path_str : str) (msg : str) : dict :=
  dict_update ∅
    [("file_path", VStr file_path_str);
     ("filename", VStr (path_name (Path file_path_str)));
     ("error", VStr msg);
     ("success", VBool false)].

Definition extract_file_metadata (file_path_str : str) : dict :=
  match safe_path file_path_str with
  | Raise _ msg => failure_record file_path_str msg
  | Return file_path =>
      let metadata := initial_metadata file_path_str file_path in
      let after_stat : outcome dict :=
        match os_stat file_path with
        | Return stat => stat_fields metadata stat
        | Raise k msg =>
            if is_OSError k
            then Return (<["success" := VBool false]> (<["file_error" := VStr msg]> metadata))
            else Raise k msg
        end in
      match after_stat with
      | Raise _ msg => failure_record file_path_str msg
      | Return metadata =>
          if METADATA_AVAILABLE && truthy (dict_get metadata "success" (VBool false))
          then match TinyTag_get file_path with
               | Return tag => tag_fields metadata tag
               | Raise _ msg => <["metadata_error" := VStr msg]> metadata
               end
          else metadata
      end
  end.

End MetadataHandler.

(** ** FileOperations *)

(** The files the deletion loop can meet: an entry that [os.remove]
    removes, or one on which it raises (read-only, a directory, in use); a
    path with no entry does not exist. *)
Inductive node :=
| Removable
| Stuck (k : exn_kind) (msg : str).

Abbreviation filesystem := (gmap str node).

(** [os.remove]. *)
Definition os_remove (fs : filesystem) (p : str) : filesystem * outcome unit :=
  match fs !! p with
  | None => (fs, Raise FileNotFoundError (py "No such file or directory"))
  | Some Removable => (delete p fs, Return ())
  | Some (Stuck k msg) => (fs, Raise k msg)
  end.

Section FileOperations.
Context `{Interp} `{Host}.

Definition extensions : list str :=
  [py ".flac"; py ".mp3"; py ".wav"; py ".m4a"; py ".ogg"; py ".aac";
   py ".wma"; py ".opus"; py ".aiff"; py ".ape"].

(** [_process_files_sequential]: the records in the order of the paths, and
    the calls [progress_callback(i + 1, len(file_paths))] in the order made. *)
Definition _process_files_sequential (file_paths : list str) : list dict * list (nat * nat) :=
  (extract_file_metadata <$> file_paths,
   (λ i, (i + 1, length file_paths)) <$> seq 0 (length file_paths)).

(** The reason recorded for one failed deletion. *)
Definition deletion_failure (file_path : str) (k : exn_kind) (msg : str) : str :=
  let name := path_name (Path file_path) in
  match k with
  | PermissionError => name ++ py ": Permission denied"
  | FileNotFoundError => name ++ py ": File not found"
  | _ => name ++ py ": " ++ msg
  end.

(** One turn of the loop of [delete_files]; the state is the file system,
    [deleted_count] and [failed_deletions]. *)
Definition delete_step (st : filesystem * nat * list str) (file_path : str)
    : filesystem * nat * list str :=
  let '(fs, deleted_count, failed_deletions) := st in
  match safe_path file_path with
  | Raise k msg => (fs, deleted_count, failed_deletions ++ [deletion_failure file_path k msg])
  | Return safe_file_path =>
      match os_remove fs safe_file_path with
      | (fs', Return _) => (fs', deleted_count + 1, failed_deletions)
      | (fs', Raise k msg) =>
          (fs', deleted_count, failed_deletions ++ [deletion_failure file_path k msg])
      end
  end.

(** [delete_files], on the paths of the set in the order the loop visits
    them. *)
Definition delete_files (fs : filesystem) (files_to_delete : list str)
    : filesystem * nat * list str :=
  foldl delete_step (fs, 0, []) files_to_delete.

End FileOperations.

(** ** DuplicateDetector *)

(** An entry of [file_info_list]. *)
Record file_info := FileInfo {
  file_path : str;
  base_title : str;
  artists : gset str;
  grouped : bool
}.

Definition set_grouped (f : file_info) : file_info :=
  {| file_path := file_path f; base_title := base_title f;
     artists := artists f; grouped := true |}.

Section DuplicateDetector.
Context `{Interp}.

(** [\s*[\(\[].*?[\)\]]] *)
Definition re_bracketed : regex :=
  seq_of [star ws; one_of (py "(["); Star false dot; one_of (py ")]")].

(** [\s*[-–—]\s*(extended|radio|club|original|vocal|instrumental|acoustic|remix|mix|edit|version|dub).*$],
    ignoring case; the dashes are the hyphen, U+2013 and U+2014. *)
Definition re_version_suffix : regex :=
  seq_of [star ws; one_of [45; 8211; 8212]%N; star ws;
          alt_of [wordi "extended"; wordi "radio"; wordi "club"; wordi "original";
                  wordi "vocal"; wordi "instrumental"; wordi "acoustic"; wordi "remix";
                  wordi "mix"; wordi "edit"; wordi "version"; wordi "dub"];
          star dot; Eol].

Definition extract_base_title (title : str) : str :=
  if bool_decide (title = []) then []
  else
    let title := strip (py_lower title) in
    let title := re_sub re_bracketed [] title in
    let title := re_sub re_version_suffix [] title in
    let title := strip (re_sub re_spaces (py " ") title) in
    title.

(** The body of the first loop of [group_by_metadata] on one record:
    [Some None] when the record is skipped, [Some (Some f)] when [f] is
    appended to [file_info_list], and [None] when the record makes the
    function raise (a title, artist string or path that is set to something
    else than a string). *)
Definition candidate (meta : dict) : option (option file_info) :=
  if negb (truthy (dict_get meta "success" (VBool false))) then Some None
  else
    let title := dict_get meta "title" (VStr []) in
    let contributing_artists_str := dict_get meta "contributing_artists" (VStr []) in
    let path := dict_get meta "file_path" (VStr []) in
    if negb (truthy title) || negb (truthy path) then Some None
    else
      title_s ← as_str title;
      let base := extract_base_title title_s in
      contributing_artists ←
        (if truthy contributing_artists_str
         then normalize_artists <$> as_str contributing_artists_str
         else Some ∅);
      if negb (bool_decide (base = [])) && negb (bool_decide (contributing_artists = ∅))
      then
        path_s ← as_str path;
        Some (Some {| file_path := path_s; base_title := base;
                      artists := contributing_artists; grouped := false |})
      else Some None.

(** First pass: [file_info_list]. *)
Fixpoint collect_file_info (files_metadata : list dict) : option (list file_info) :=
  match files_metadata with
  | [] => Some []
  | meta :: rest =>
      c ← candidate meta;
      l ← collect_file_info rest;
      Some (match c with Some f => f :: l | None => l end)
  end.

(** The test of the inner loop. *)
Definition is_match (file1 file2 : file_info) : bool :=
  let titles_match := bool_decide (base_title file1 = base_title file2) in
  let artists_overlap := bool_decide (0 < size (artists file1 ∩ artists file2)) in
  let artists_subset :=
    bool_decide (artists file1 ⊆ artists file2) || bool_decide (artists file2 ⊆ artists file1) in
  titles_match && (artists_overlap || artists_subset).

(** One turn of the inner loop, [for j in range(i + 1, len(file_info_list))].
    The entries of [file_info_list] are shared objects: the list is the
    store, and [current_group] holds positions in it. *)
Definition scan_step (i : nat) (st : list file_info * list nat) (j : nat)
    : list file_info * list nat :=
  let '(file_info_list, current_group) := st in
  match file_info_list !! i, file_info_list !! j with
  | Some file1, Some file2 =>
      if grouped file2 then st
      else if is_match file1 file2
           then (<[j := set_grouped file2]> file_info_list, current_group ++ [j])
           else st
  | _, _ => st
  end.

(** One turn of the outer loop, [for i, file1 in enumerate(file_info_list)]. *)
Definition group_step (st : list file_info * list (list nat)) (i : nat)
    : list file_info * list (list nat) :=
  let '(file_info_list, groups) := st in
  match file_info_list !! i with
  | Some file1 =>
      if grouped file1 then st
      else
        let file_info_list := <[i := set_grouped file1]> file_info_list in
        let '(file_info_list, current_group) :=
          foldl (scan_step i) (file_info_list, [i])
                (seq (i + 1) (length file_info_list - (i + 1))) in
        (file_info_list,
         if bool_decide (2 ≤ length current_group) then groups ++ [current_group] else groups)
  | None => st
  end.

(** Second pass: the store after the loops, and [groups]. *)
Definition second_pass (file_info_list : list file_info)
    : list file_info * list (list nat) :=
  foldl group_step (file_info_list, []) (seq 0 (length file_info_list)).

Definition group_name (first_file : file_info) : str :=
  py_title (base_title first_file) ++ py " - " ++ join (py ", ") (sorted (artists first_file)).

(** The paths of a group, read through the store. *)
Definition group_paths (file_info_list : list file_info) (group : list nat) : list str :=
  omap (λ k, file_path <$> file_info_list !! k) group.

(** One turn of the conversion loop: [result[group_name] = [...]]. *)
Definition result_step (file_info_list : list file_info)
    (result : gmap str (list str)) (group : list nat) : gmap str (list str) :=
  match group with
  | first :: _ =>
      match file_info_list !! first with
      | Some first_file => <[group_name first_file := group_paths file_info_list group]> result
      | None => result
      end
  | [] => result
  end.

Definition to_result (file_info_list : list file_info) (groups : list (list nat))
    : gmap str (list str) :=
  foldl (result_step file_info_list) ∅ groups.

(** [group_by_metadata]; [None] when it raises. *)
Definition group_by_metadata (files_metadata : list dict) : option (gmap str (list str)) :=
  file_info_list ← collect_file_info files_metadata;
  let '(file_info_list, groups) := second_pass file_info_list in
  Some (to_result file_info_list groups).

End DuplicateDetector.

(** ** AudioDuplicateDetectorUI: the tree and the survivor policy *)

(** A file row of the tree, the parts [auto_select_longest] reads: its item
    identifier, the path that [item_data] holds for it (if any) and its
    ['length'] and ['size'] columns. *)
Record tree_row := TreeRow {
  file_item : nat;
  row_file_path : option str;
  length_col : str;
  size_col : str
}.

(** An element of [files_in_group]:
    [(file_item, file_path, duration_sec, size_mb)]. *)
Definition group_entry : Type := nat * str * Z * float_value.

Definition sort_key (x : group_entry) : Z * float_value := (x.1.2, x.2).

(** [<] on floats: false whenever a nan is compared. *)
Definition float_ltb (x y : float_value) : bool :=
  match x, y with
  | NaN, _ | _, NaN => false
  | Finite p, Finite q => negb (Qle_bool q p)
  | Finite _, PosInf => true
  | Finite _, NegInf => false
  | PosInf, _ => false
  | NegInf, NegInf => false
  | NegInf, _ => true
  end.

(** [<] on the key tuples: decided by the first components when they
    differ, by the second components otherwise. *)
Definition key_ltb (a b : Z * float_value) : bool :=
  (a.1 <? b.1)%Z || ((a.1 =? b.1)%Z && float_ltb a.2 b.2).

(** A stable sort in descending order: an entry stays before the later
    entries with an equal key. *)
Fixpoint insert_desc (x : group_entry) (l : list group_entry) : list group_entry :=
  match l with
  | [] => [x]
  | y :: l' => if key_ltb (sort_key x) (sort_key y) then y :: insert_desc x l' else x :: l
  end.

Definition sort_desc (l : list group_entry) : list group_entry := foldr insert_desc [] l.

Definition is_nan (x : float_value) : bool :=
  match x with NaN => true | _ => false end.

(** [l.sort(key=lambda x: (x[2], x[3]), reverse=True)].  Where no key holds
    a nan, [<] on the keys is a strict weak order and the result is the one
    of the stable descending sort.  Where a key holds a nan the result
    depends on the comparisons that [list.sort] happens to make; this case
    has no result here. *)
Definition list_sort_reverse (l : list group_entry) : option (list group_entry) :=
  if existsb (λ x, is_nan x.2) l then None else Some (sort_desc l).

Section UI.
Context `{Interp} `{Host}.

(** The body of the loop over the files of a group in [_populate_tree]: the
    file is read again; a record without success is skipped; otherwise a row
    is inserted under the next item identifier, with the formatted duration
    in its ['length'] column, the size in MB in its ['size'] column and
    ['[ ]'] in its ['select'] column, and [item_data] gets the path.  No
    result stands for a [KeyError] of the subscripts; the extractor stores
    a string under ['duration_formatted'] and an [int] under ['size_mb']. *)
Definition populate_file (st : nat * list tree_row * gmap nat bool) (file_path : str)
    : option (nat * list tree_row * gmap nat bool) :=
  let '(next_item, rows, marks) := st in
  let metadata := extract_file_metadata file_path in
  if negb (truthy (dict_get metadata "success" (VBool false))) then Some st
  else
    match metadata !! "filename", metadata !! "size_mb",
          metadata !! "duration_formatted", metadata !! "quality" with
    | Some _, Some (VInt size_mb), Some (VStr duration), Some _ =>
        Some (S next_item,
              rows ++ [TreeRow next_item (Some file_path) duration (str_of_Z size_mb)],
              <[next_item := false]> marks)
    | _, _, _, _ => None
    end.

(** The body of the loop over [duplicates.items()]: a group item, then its
    file rows. *)
Definition populate_group (st : nat * list (list tree_row) * gmap nat bool)
    (group : str * list str) : option (nat * list (list tree_row) * gmap nat bool) :=
  let '(next_item, tree, marks) := st in
  match foldl (λ st file_path, st ≫= (λ st, populate_file st file_path))
              (Some (S next_item, [], marks)) group.2 with
  | Some (next_item, rows, marks) => Some (next_item, tree ++ [rows], marks)
  | None => None
  end.

(** [_populate_tree] on the items of [duplicates], on an empty tree: the
    file rows of each group and the ['select'] column. *)
Definition _populate_tree (duplicates : list (str * list str))
    : option (list (list tree_row) * gmap nat bool) :=
  match foldl (λ st group, st ≫= (λ st, populate_group st group))
              (Some (1, [], ∅)) duplicates with
  | Some (_, tree, marks) => Some (tree, marks)
  | None => None
  end.

Definition duration_to_seconds (duration_str : str) : Z :=
  match split_char (chr ":") duration_str with
  | [m; s] =>
      match py_int m, py_int s with
      | Some m, Some s => (m * 60 + s)%Z
      | _, _ => 0%Z
      end
  | [h; m; s] =>
      match py_int h, py_int m, py_int s with
      | Some h, Some m, Some s => (h * 3600 + m * 60 + s)%Z
      | _, _, _ => 0%Z
      end
  | _ => 0%Z
  end.

(** The entry built for one row, when [item_data] has a path for it. *)
Definition entry_of_row (row : tree_row) : option group_entry :=
  match row_file_path row with
  | Some path =>
      if bool_decide (path = []) then None
      else
        let size_mb := default (Finite 0) (py_float (size_col row)) in
        let duration_sec := duration_to_seconds (length_col row) in
        Some (file_item row, path, duration_sec, size_mb)
  | None => None
  end.

(** The marking loop over the sorted entries: the first is kept, the others
    go to [selected_files].  [marks] is the ['select'] column of the tree,
    [true] for ['[X]']. *)
Fixpoint mark_entries (i : nat) (l : list group_entry)
    (st : gset str * gmap nat bool) : gset str * gmap nat bool :=
  match l with
  | [] => st
  | (item, path, _, _) :: l' =>
      let '(selected_files, marks) := st in
      if bool_decide (i = 0)
      then mark_entries (S i) l' (selected_files, <[item := false]> marks)
      else mark_entries (S i) l' (selected_files ∪ {[path]}, <[item := true]> marks)
  end.

(** The body of the loop over the groups of the tree. *)
Definition select_in_group (st : gset str * gmap nat bool) (rows : list tree_row)
    : option (gset str * gmap nat bool) :=
  let files_in_group := omap entry_of_row rows in
  if bool_decide (length files_in_group ≤ 1) then Some st
  else
    match list_sort_reverse files_in_group with
    | Some sorted => Some (mark_entries 0 sorted st)
    | None => None
    end.

(** [auto_select_longest] on the groups of the tree: the new
    [selected_files] and ['select'] column. *)
Definition auto_select_longest (tree : list (list tree_row)) (marks : gmap nat bool)
    : option (gset str * gmap nat bool) :=
  foldl (λ st rows, st ≫= (λ st, select_in_group st rows)) (Some (∅, marks)) tree.


End UI.

(** ** Sample inputs *)

(** A record as the extractor returns it for a readable file, reduced to
    the keys that [group_by_metadata] reads. *)
Definition track (path title artist_str : string) : dict :=
  dict_update ∅
    [("file_path", VStr (py path));
     ("title", VStr (py title));
     ("contributing_artists", VStr (py artist_str));
     ("success", VBool true)].

(** A host for the samples: a POSIX system with the tag reader installed,
    paths in normal form, and the given answers of [os.stat] and of the tag
    reader. *)
Fixpoint after_last (sep : char) (acc s : str) : str :=
  match s with
  | [] => acc
  | c :: s' => if N.eqb c sep then after_last sep s' s' else after_last sep acc s'
  end.

(** [PurePosixPath(s).name] for a path in normal form. *)
Definition posix_name (s : str) : str := after_last 47%N s s.

(** [PurePosixPath(s).suffix]: from the last dot of the name, unless the
    name starts with this dot or ends with it. *)
Fixpoint from_last_dot (acc : option str) (s : str) : option str :=
  match s with
  | [] => acc
  | c :: s' => if N.eqb c 46%N then from_last_dot (Some s) s' else from_last_dot acc s'
  end.

Definition posix_suffix (s : str) : str :=
  match posix_name s with
  | [] => []
  | c :: name' =>
      match from_last_dot None name' with
      | Some [_] => []
      | Some suffix => suffix
      | None => []
      end
  end.

Definition posix_host (stat : str → outcome stat_result) (tags : str → outcome TinyTag)
    : Host := {|
  is_windows := false;
  METADATA_AVAILABLE := true;
  Path := id;
  path_name := posix_name;
  path_suffix := posix_suffix;
  path_resolve := Return;
  os_stat := stat;
  TinyTag_get := tags;
  strftime := λ _, Return (py "2024-01-01 00:00:00")
|}.

(** A host on which every file is unreadable. *)
Definition denied_host : Host :=
  posix_host (λ _, Raise PermissionError (py "[Errno 13] Permission denied"))
             (λ _, Raise OtherException (py "unreadable")).

(** A file of 3 MB and its tags, for the samples. *)
Definition sample_stat : stat_result :=
  {| st_size := 3145728; st_mtime := 0; st_ctime := 0; st_birthtime := None |}.

Definition sample_tag : TinyTag :=
  {| tag_title := Some (py "Song"); tag_artist := Some (py "X");
     tag_albumartist := None; tag_composer := None; tag_album := None;
     tag_year := None; tag_genre := None; tag_duration := Some (inject_Z 200);
     tag_bitrate := None; tag_samplerate := None; tag_channels := None |}.

(** [PureWindowsPath(s).name] and [.suffix] for a path in normal form: both
    separators end a directory. *)
Definition windows_name (s : str) : str := posix_name (after_last 92%N s s).
Definition windows_suffix (s : str) : str := posix_suffix (after_last 92%N s s).

(** A Windows system on which every file is readable and tagged, with the
    given answer of [Path.resolve]. *)
Definition windows_host (resolve : str → outcome str) : Host := {|
  is_windows := true;
  METADATA_AVAILABLE := true;
  Path := λ s, s ≫= (λ c, if N.eqb c 47 then [92%N] else [c]);
  path_name := windows_name;
  path_suffix := windows_suffix;
  path_resolve := resolve;
  os_stat := λ _, Return sample_stat;
  TinyTag_get := λ _, Return sample_tag;
  strftime := λ _, Return (py "2024-01-01 00:00:00")
|}.

(** The resolution fails with an [OSError]. *)
Definition unresolvable_host : Host :=
  windows_host (λ _, Raise OSError (py "[WinError 1920] The file cannot be accessed")).

(** The resolution fails with a [RuntimeError]. *)
Definition looping_host : Host :=
  windows_host (λ _, Raise OtherException (py "Symlink loop from 'a.mp3'")).

(** Two takes of one song: ["long.mp3"], 200.9 seconds in 4 MB, and
    ["short.mp3"], 200.1 seconds in 5 MB. *)
Definition take_stat (size : Z) : stat_result :=
  {| st_size := size; st_mtime := 0; st_ctime := 0; st_birthtime := None |}.

Definition take_tag (duration : Q) : TinyTag :=
  {| tag_title := Some (py "Song"); tag_artist := Some (py "X");
     tag_albumartist := None; tag_composer := None; tag_album := None;
     tag_year := None; tag_genre := None; tag_duration := Some duration;
     tag_bitrate := None; tag_samplerate := None; tag_channels := None |}.

Definition two_takes_host : Host :=
  posix_host
    (λ p, Return (take_stat (if bool_decide (p = py "long.mp3")
                             then 4 * 1024 * 1024 else 5 * 1024 * 1024)))
    (λ p, Return (take_tag (if bool_decide (p = py "long.mp3")
                            then 2009 # 10 else 2001 # 10))).


(** The keys that hold decoded tag data. *)
Definition tag_keys : list string :=
  ["title"; "contributing_artists"; "album_artist"; "raw_artists";
   "normalized_artists_debug"; "album"; "year"; "genre"; "duration";
   "duration_formatted"; "bitrate"; "samplerate"; "channels"; "artist"].

(** Two versions of one song. *)
Definition two_versions : list dict :=
  [track "A.mp3" "Song" "X, Y"; track "B.flac" "Song (Remix)" "Y"].

(** Three tracks of one title; the second shares an artist with each of
    the other two, which share none. *)
Definition chain : list dict :=
  [track "P.mp3" "Song" "A"; track "Q.mp3" "Song" "A, B"; track "R.mp3" "Song" "B"].

(** Three tracks of one title; the first shares an artist with each of the
    other two, which share none. *)
Definition star_shape : list dict :=
  [track "P.mp3" "Song" "A, B"; track "Q.mp3" "Song" "A"; track "R.mp3" "Song" "B"].

(** Two songs, two files each. *)
Definition two_groups : list dict :=
  [track "P.mp3" "Song" "X"; track "Q.mp3" "Song" "X";
   track "R.mp3" "Tune" "X"; track "S.mp3" "Tune" "X"].

(** A list in which one path occurs in two records. *)
Definition repeated_path : list dict :=
  [track "P.mp3" "Song" "X"; track "Q.mp3" "Song" "X";
   track "P.mp3" "Tune" "X"; track "R.mp3" "Tune" "X"].

(** ** Auxiliary notions for the proofs about the grouping engine *)

(** The test of the inner loop, as a proposition. *)
Definition matches (file1 file2 : file_info) : Prop :=
  base_title file1 = base_title file2
  ∧ (artists file1 ∩ artists file2 ≠ ∅
     ∨ artists file1 ⊆ artists file2
     ∨ artists file2 ⊆ artists file1).

(** The store [l] with the entries at the positions of [C] flagged. *)
Definition mark (C : list nat) (l : list file_info) : list file_info :=
  imap (λ k f, if bool_decide (k ∈ C) then set_grouped f else f) l.

(** The test of the inner loop between two positions of the store. *)
Definition match_at (l : list file_info) (i j : nat) : bool :=
  match l !! i, l !! j with
  | Some f1, Some f2 => is_match f1 f2
  | _, _ => false
  end.

(** The positions after [a] that are not in [C] and match [a]. *)
Definition members (l : list file_info) (C : list nat) (a : nat) : list nat :=
  filter (λ j, (j ∉ C) ∧ match_at l a j) (seq (a + 1) (length l - (a + 1))).

(** The outer loop on the set of claimed positions instead of the flags. *)
Definition pure_step (l : list file_info) (st : list nat * list (list nat)) (i : nat)
    : list nat * list (list nat) :=
  let '(C, groups) := st in
  if bool_decide (i ∈ C) then st
  else
    let g := i :: members l C i in
    (g ++ C, if bool_decide (2 ≤ length g) then groups ++ [g] else groups).

Definition pure_pass (l : list file_info) (n : nat) : list nat * list (list nat) :=
  foldl (pure_step l) ([], []) (seq 0 n).

(** No entry is flagged: the state of [file_info_list] after the first pass. *)
Definition fresh (l : list file_info) : Prop := Forall (λ f, grouped f = false) l.

(** The label of a group of positions. *)
Definition label (l : list file_info) `{Interp} (g : list nat) : option str :=
  first ← head g; (group_name <$> (l !! first)).

(** ** The store and the flags *)

Lemma mark_lookup C l k :
  mark C l !! k = (λ f, if bool_decide (k ∈ C) then set_grouped f else f) <$> l !! k.
Proof. unfold mark. by rewrite list_lookup_imap. Qed.

Lemma length_mark C l : length (mark C l) = length l.
Proof. unfold mark. by rewrite length_imap. Qed.

Lemma mark_nil l : mark [] l = l.
Proof.
  apply list_eq. intros k. rewrite mark_lookup.
  by destruct (l !! k).
Qed.

Lemma mark_ext C C' l : (∀ k, k ∈ C ↔ k ∈ C') → mark C l = mark C' l.
Proof.
  intros HC. apply list_eq. intros k. rewrite !mark_lookup.
  destruct (l !! k); simpl; [|done].
  f_equal. destruct (decide (k ∈ C)) as [Hk|Hk].
  - rewrite !bool_decide_eq_true_2; [done| by apply HC | done].
  - rewrite !bool_decide_eq_false_2; [done| by rewrite <- HC | done].
Qed.

Lemma mark_insert C l j f :
  mark C l !! j = Some f → <[j := set_grouped f]> (mark C l) = mark (j :: C) l.
Proof.
  intros Hj. apply list_eq. intros k. rewrite mark_lookup.
  destruct (decide (k = j)) as [->|Hne].
  - rewrite list_lookup_insert_eq by (by eapply lookup_lt_Some).
    rewrite mark_lookup in Hj. destruct (l !! j) as [f0|]; simplify_eq/=.
    rewrite (bool_decide_eq_true_2 (j ∈ j :: C)) by left.
    by destruct f0, (bool_decide (j ∈ C)).
  - rewrite list_lookup_insert_ne by done. rewrite mark_lookup.
    destruct (l !! k); simpl; [|done].
    f_equal. destruct (decide (k ∈ C)) as [Hk|Hk].
    + rewrite !bool_decide_eq_true_2; [done| by right | done].
    + rewrite !bool_decide_eq_false_2; [done| |done].
      rewrite elem_of_cons. naive_solver.
Qed.

Lemma is_match_set_grouped_l f1 f2 : is_match (set_grouped f1) f2 = is_match f1 f2.
Proof. done. Qed.

Lemma is_match_set_grouped_r f1 f2 : is_match f1 (set_grouped f2) = is_match f1 f2.
Proof. done. Qed.

Lemma match_at_mark C l i j : match_at (mark C l) i j = match_at l i j.
Proof.
  unfold match_at. rewrite !mark_lookup.
  destruct (l !! i), (l !! j); simpl; try done.
  by destruct (bool_decide (i ∈ C)), (bool_decide (j ∈ C)).
Qed.

Lemma fresh_lookup l k f : fresh l → l !! k = Some f → grouped f = false.
Proof. intros Hl Hk. by eapply (Forall_lookup_1 _ _ _ _ Hl Hk). Qed.

Lemma mark_grouped C l k f :
  fresh l → mark C l !! k = Some f → grouped f = bool_decide (k ∈ C).
Proof.
  intros Hl. rewrite mark_lookup. destruct (l !! k) as [f0|] eqn:Hk; [|done].
  intros [= <-]. case_bool_decide; [done|]. by eapply fresh_lookup.
Qed.

Lemma filter_ext_in {A} (P Q : A → Prop) `{∀ x, Decision (P x)} `{∀ x, Decision (Q x)}
    (l : list A) :
  (∀ x, x ∈ l → P x ↔ Q x) → filter P l = filter Q l.
Proof.
  induction l as [|x l IH]; intros HPQ; [done|].
  rewrite !filter_cons.
  rewrite IH by (intros; apply HPQ; by right).
  destruct (decide (P x)) as [HP|HP], (decide (Q x)) as [HQ|HQ]; try done.
  - destruct HQ. apply HPQ; [left|done].
  - destruct HP. apply HPQ; [left|done].
Qed.

(** One turn of the inner loop, on the set of claimed positions. *)
Lemma scan_step_mark l a j C cur :
  fresh l → a < length l → j < length l →
  scan_step a (mark C l, cur) j =
    if decide ((j ∉ C) ∧ match_at l a j) then (mark (j :: C) l, cur ++ [j])
    else (mark C l, cur).
Proof.
  intros Hl Ha Hj.
  assert (is_Some (mark C l !! a)) as [fa Hfa].
  { apply lookup_lt_is_Some. by rewrite length_mark. }
  assert (is_Some (mark C l !! j)) as [fj Hfj].
  { apply lookup_lt_is_Some. by rewrite length_mark. }
  assert (is_match fa fj = match_at l a j) as Hm.
  { rewrite <- (match_at_mark C). unfold match_at. by rewrite Hfa, Hfj. }
  unfold scan_step. rewrite Hfa, Hfj.
  rewrite (mark_grouped C l j fj Hl Hfj), Hm.
  case_bool_decide as HjC.
  - rewrite decide_False by naive_solver. done.
  - destruct (match_at l a j) eqn:Hmatch.
    + rewrite decide_True by naive_solver. by rewrite (mark_insert _ _ _ _ Hfj).
    + rewrite decide_False by naive_solver. done.
Qed.

(** The inner loop flags the matching unclaimed positions and appends them
    to the group, in the order of the scan. *)
Lemma scan_fold l a js : ∀ C cur,
  fresh l → a < length l → (∀ j, j ∈ js → j < length l) → NoDup js →
  foldl (scan_step a) (mark C l, cur) js =
    (mark (filter (λ j, (j ∉ C) ∧ match_at l a j) js ++ C) l,
     cur ++ filter (λ j, (j ∉ C) ∧ match_at l a j) js).
Proof.
  induction js as [|j js IH]; intros C cur Hl Ha Hjs Hnd.
  { simpl. by rewrite app_nil_r. }
  apply NoDup_cons in Hnd as [Hj Hnd].
  cbn [foldl]. rewrite scan_step_mark by (auto; apply Hjs; left).
  rewrite filter_cons.
  destruct (decide ((j ∉ C) ∧ match_at l a j)) as [Hyes|Hno].
  - rewrite IH; auto; [|intros; apply Hjs; by right].
    assert (filter (λ j0, (j0 ∉ j :: C) ∧ match_at l a j0) js
            = filter (λ j0, (j0 ∉ C) ∧ match_at l a j0) js) as ->.
    { apply filter_ext_in. intros x Hx.
      rewrite not_elem_of_cons. naive_solver. }
    f_equal.
    + apply mark_ext. intros k. cbn [app].
      rewrite ?elem_of_app, ?elem_of_cons, ?elem_of_app. naive_solver.
    + by rewrite <- app_assoc.
  - apply IH; auto. intros; apply Hjs; by right.
Qed.

(** One turn of the outer loop, on the set of claimed positions. *)
Lemma group_step_mark l C groups i :
  fresh l → i < length l →
  group_step (mark C l, groups) i =
    (mark (pure_step l (C, groups) i).1 l, (pure_step l (C, groups) i).2).
Proof.
  intros Hl Hi.
  assert (is_Some (mark C l !! i)) as [fi Hfi].
  { apply lookup_lt_is_Some. by rewrite length_mark. }
  unfold group_step, pure_step. rewrite Hfi.
  rewrite (mark_grouped C l i fi Hl Hfi).
  case_bool_decide as HiC; [done|].
  cbv zeta. rewrite (mark_insert _ _ _ _ Hfi), length_mark.
  rewrite scan_fold; auto.
  - assert (filter (λ j, (j ∉ i :: C) ∧ match_at l i j) (seq (i + 1) (length l - (i + 1)))
            = members l C i) as ->.
    { apply filter_ext_in. intros j Hj. apply elem_of_seq in Hj.
      rewrite not_elem_of_cons. split; [naive_solver|]. intros [??]. split; [|done].
      split; [lia|done]. }
    cbn [fst snd app]. f_equal.
    apply mark_ext. intros k. cbn [app].
    rewrite ?elem_of_app, ?elem_of_cons, ?elem_of_app. naive_solver.
  - intros j Hj. apply elem_of_seq in Hj. lia.
  - apply NoDup_seq.
Qed.

Lemma group_fold_mark l idx : ∀ C groups,
  fresh l → (∀ i, i ∈ idx → i < length l) →
  foldl group_step (mark C l, groups) idx =
    (mark (foldl (pure_step l) (C, groups) idx).1 l, (foldl (pure_step l) (C, groups) idx).2).
Proof.
  induction idx as [|i idx IH]; intros C groups Hl His; [done|].
  cbn [foldl]. rewrite group_step_mark by (auto; apply His; left).
  destruct (pure_step l (C, groups) i) as [C' groups'] eqn:Hstep.
  cbn [fst snd]. apply IH; auto. intros; apply His; by right.
Qed.

(** The second pass computes the groups of [pure_pass]; the store it leaves
    is the initial one with the claimed positions flagged. *)
Lemma second_pass_pure l :
  fresh l →
  second_pass l = (mark (pure_pass l (length l)).1 l, (pure_pass l (length l)).2).
Proof.
  intros Hl. unfold second_pass, pure_pass.
  rewrite <- (mark_nil l) at 1.
  apply group_fold_mark; [done|].
  intros i Hi. apply elem_of_seq in Hi. lia.
Qed.

Lemma pure_pass_S l i : pure_pass l (S i) = pure_step l (pure_pass l i) i.
Proof. unfold pure_pass. by rewrite seq_S, foldl_app. Qed.

(** ** The invariant of the outer loop *)

(** After the turns [0 .. i-1]: [C] is the set of claimed positions and
    [groups] the groups kept so far. *)
Record pass_inv (l : list file_info) (i : nat) (C : list nat) (groups : list (list nat)) : Prop := {
  inv_done : ∀ k, k < i → k ∈ C;
  inv_bound : ∀ j, j ∈ C → j < length l;
  inv_ahead : ∀ j, j ∈ C → i ≤ j → j ∈ concat groups;
  inv_claimed : ∀ j, j ∈ concat groups → j ∈ C;
  inv_nodup : NoDup (concat groups);
  inv_shape : ∀ m g, groups !! m = Some g →
    ∃ a, a < i ∧ (a ∉ concat (take m groups))
         ∧ g = a :: members l (concat (take m groups)) a
         ∧ members l (concat (take m groups)) a ≠ []
}.

Lemma members_elem l C a j :
  j ∈ members l C a ↔ a < j < length l ∧ (j ∉ C) ∧ match_at l a j.
Proof.
  unfold members. rewrite list_elem_of_filter, elem_of_seq.
  split; intros; destruct_and?; split_and?; auto; lia.
Qed.

Lemma members_NoDup l C a : NoDup (members l C a).
Proof. apply NoDup_filter, NoDup_seq. Qed.

Lemma pass_inv_init l : pass_inv l 0 [] [].
Proof.
  split; try (intros; lia); try (intros ? []%elem_of_nil); try done.
  constructor.
Qed.

Lemma pass_inv_step l i C groups :
  i < length l → pass_inv l i C groups →
  pass_inv l (S i) (pure_step l (C, groups) i).1 (pure_step l (C, groups) i).2.
Proof.
  intros Hi [Hdone Hbound Hahead Hclaimed Hnd Hshape].
  unfold pure_step. case_bool_decide as HiC; cbn [fst snd].
  { split; auto.
    - intros k Hk. destruct (decide (k = i)) as [->|]; [done|]. apply Hdone. lia.
    - intros j Hj Hle. apply Hahead; [done|lia].
    - intros m g Hg. destruct (Hshape m g Hg) as (a & ? & ?). exists a. split; [lia|done]. }
  set (ms := members l C i).
  assert (∀ j, j ∈ (i :: ms) ++ C ↔ j = i ∨ j ∈ ms ∨ j ∈ C) as Hnew.
  { intros j. cbn [app]. rewrite elem_of_cons, elem_of_app. done. }
  assert (∀ j, j ∈ ms → (i < j < length l) ∧ (j ∉ C)) as Hms.
  { intros j Hj. apply members_elem in Hj. naive_solver. }
  assert (i ∉ concat groups) as Hifresh by (intros ?%Hclaimed; done).
  assert (members l (concat groups) i = ms) as Hmseq.
  { apply filter_ext_in. intros j Hj. apply elem_of_seq in Hj.
    split; intros [Hn Hm]; (split; [|done]); intros Hin; apply Hn.
    - apply Hahead; [done|lia].
    - by apply Hclaimed. }
  split.
  - intros k Hk. apply Hnew. destruct (decide (k = i)) as [->|]; [by left|].
    right. right. apply Hdone. lia.
  - intros j Hj. apply Hnew in Hj.
    destruct Hj as [->|[Hj|Hj]]; [done|by apply Hms|by apply Hbound].
  - intros j Hj Hle. apply Hnew in Hj.
    destruct Hj as [->|[Hj|Hj]]; [lia| |].
    + rewrite bool_decide_eq_true_2.
      * rewrite concat_app. apply elem_of_app. right. simpl.
        rewrite app_nil_r. by right.
      * destruct ms; [by apply elem_of_nil in Hj|simpl; lia].
    + assert (j ∈ concat groups) by (apply Hahead; [done|lia]).
      case_bool_decide; [|done]. rewrite concat_app. apply elem_of_app. by left.
  - intros j. rewrite Hnew. case_bool_decide.
    + rewrite concat_app, elem_of_app. simpl. rewrite app_nil_r.
      intros [Hj|Hj].
      * right. right. by apply Hclaimed.
      * rewrite elem_of_cons in Hj. destruct Hj as [->|Hj]; [by left|].
        right. by left.
    + intros Hj. right. right. by apply Hclaimed.
  - case_bool_decide; [|done].
    rewrite concat_app. simpl. rewrite app_nil_r.
    apply NoDup_app. split; [done|]. split.
    + intros x Hx. rewrite elem_of_cons. intros [->|Hx']; [done|].
      apply Hms in Hx'. destruct Hx' as [_ Hx']. apply Hx'. by apply Hclaimed.
    + apply NoDup_cons. split; [|apply members_NoDup].
      intros Hin. apply Hms in Hin. lia.
  - intros m g. case_bool_decide as Hlen.
    + intros Hg. apply lookup_app_Some in Hg as [Hg|[Hm Hg]].
      * rewrite take_app_le by (apply lookup_lt_Some in Hg; lia).
        destruct (Hshape m g Hg) as (a & ? & ?). exists a. split; [lia|done].
      * assert (m = length groups) as ->.
        { apply lookup_lt_Some in Hg. simpl in Hg. lia. }
        rewrite Nat.sub_diag in Hg. simpl in Hg. injection Hg as <-.
        rewrite take_app_length. exists i. rewrite Hmseq.
        split_and?; [lia|done|done|].
        intros Hnil. fold ms in Hlen. rewrite Hnil in Hlen. simpl in Hlen. lia.
    + intros Hg. destruct (Hshape m g Hg) as (a & ? & ?). exists a. split; [lia|done].
Qed.

Lemma pure_pass_inv l i :
  i ≤ length l → pass_inv l i (pure_pass l i).1 (pure_pass l i).2.
Proof.
  induction i as [|i IH]; intros Hi.
  - apply pass_inv_init.
  - rewrite pure_pass_S.
    destruct (pure_pass l i) as [C groups] eqn:Hrun.
    apply pass_inv_step; [lia|]. apply IH. lia.
Qed.

Lemma pure_pass_prefix l i n :
  i ≤ n → ∃ rest, (pure_pass l n).2 = (pure_pass l i).2 ++ rest.
Proof.
  induction 1 as [|n Hle [rest IH]].
  - exists []. by rewrite app_nil_r.
  - rewrite pure_pass_S. destruct (pure_pass l n) as [C groups]. simpl in IH.
    unfold pure_step. case_bool_decide; [by exists rest|]. cbn [snd].
    case_bool_decide; [|by exists rest].
    eexists. rewrite IH, <- app_assoc. done.
Qed.

(** ** The first pass *)

Lemma candidate_Some `{Interp} meta f :
  candidate meta = Some (Some f) →
  truthy (dict_get meta "success" (VBool false)) = true
  ∧ dict_get meta "file_path" (VStr []) = VStr (file_path f)
  ∧ file_path f ≠ []
  ∧ (∃ title, dict_get meta "title" (VStr []) = VStr title ∧ title ≠ []
              ∧ base_title f = extract_base_title title)
  ∧ (∃ a, dict_get meta "contributing_artists" (VStr []) = VStr a
          ∧ artists f = normalize_artists a)
  ∧ base_title f ≠ [] ∧ artists f ≠ ∅ ∧ grouped f = false.
Proof.
  unfold candidate.
  destruct (truthy (dict_get meta "success" _)) eqn:Hs; simpl; [|done].
  destruct (dict_get meta "title" (VStr [])) as [title| | |] eqn:Ht;
  destruct (dict_get meta "file_path" (VStr [])) as [path| | |] eqn:Hp;
  destruct (dict_get meta "contributing_artists" (VStr [])) as [a| | |] eqn:Ha; simpl;
  repeat (case_bool_decide; simpl); try done;
  repeat (case_match; simpl); try done;
  repeat (case_bool_decide; simpl); try done;
  intros [= <-]; simpl; split_and?; eauto.
  all: exfalso; set_solver.
Qed.

Lemma collect_file_info_spec `{Interp} metas l :
  collect_file_info metas = Some l ↔
  Forall (λ meta, is_Some (candidate meta)) metas
  ∧ l = omap (λ meta, default None (candidate meta)) metas.
Proof.
  revert l. induction metas as [|meta metas IH]; intros l.
  - simpl. split; [intros [= <-]; by split|]. by intros [_ ->].
  - cbn [collect_file_info omap]. rewrite Forall_cons.
    destruct (candidate meta) as [c|] eqn:Hc; simpl.
    2: { split; [done|]. by intros [[[? ?] _] _]. }
    destruct (collect_file_info metas) as [l'|] eqn:Hl'; simpl.
    + destruct (IH l') as [[Hall ->] _]; [done|]. split.
      * intros [= <-]. split; [split; [eauto|done]|]. by rewrite Hc.
      * intros [_ ->]. by rewrite Hc.
    + split; [done|]. intros [[_ Hall] _].
      destruct (IH (omap (λ meta, default None (candidate meta)) metas)) as [_ Hback].
      by specialize (Hback (conj Hall eq_refl)).
Qed.

Lemma collect_origin `{Interp} metas l f :
  collect_file_info metas = Some l → f ∈ l →
  ∃ meta, meta ∈ metas ∧ candidate meta = Some (Some f).
Proof.
  intros [Hall ->]%collect_file_info_spec Hf.
  apply list_elem_of_omap in Hf as (meta & Hmeta & Hc).
  exists meta. split; [done|].
  destruct (candidate meta) as [c|]; simpl in Hc; by subst.
Qed.

Lemma collect_fresh `{Interp} metas l : collect_file_info metas = Some l → fresh l.
Proof.
  intros Hl. apply Forall_forall. intros f Hf.
  destruct (collect_origin _ _ _ Hl Hf) as (meta & _ & Hc).
  apply candidate_Some in Hc. naive_solver.
Qed.

(** ** The conversion to the result *)

Lemma group_paths_mark C l g : group_paths (mark C l) g = group_paths l g.
Proof.
  unfold group_paths. induction g as [|k g IH]; [done|].
  csimpl. rewrite IH, mark_lookup.
  destruct (l !! k); simpl; [|done]. by case_bool_decide.
Qed.

Lemma label_mark `{Interp} C l g : label (mark C l) g = label l g.
Proof.
  unfold label. destruct (head g) as [a|]; simpl; [|done].
  rewrite mark_lookup. destruct (l !! a); simpl; [|done].
  by case_bool_decide.
Qed.

Lemma result_step_label `{Interp} l r g :
  result_step l r g =
    match label l g with
    | Some name => <[name := group_paths l g]> r
    | None => r
    end.
Proof.
  unfold result_step, label. destruct g as [|a g]; simpl; [done|].
  by destruct (l !! a).
Qed.

Lemma to_result_mark `{Interp} C l groups : to_result (mark C l) groups = to_result l groups.
Proof.
  unfold to_result. generalize (∅ : gmap str (list str)).
  induction groups as [|g groups IH]; intros r; simpl; [done|].
  rewrite IH. f_equal. rewrite !result_step_label.
  by rewrite label_mark, group_paths_mark.
Qed.

Lemma to_result_snoc `{Interp} l groups g :
  to_result l (groups ++ [g]) = result_step l (to_result l groups) g.
Proof. unfold to_result. by rewrite foldl_app. Qed.

(** The entry of a label is the group that was given this label last. *)
Lemma to_result_lookup `{Interp} l groups name paths :
  to_result l groups !! name = Some paths ↔
  ∃ m g, groups !! m = Some g ∧ label l g = Some name ∧ paths = group_paths l g
         ∧ ∀ m' g', m < m' → groups !! m' = Some g' → label l g' ≠ Some name.
Proof.
  revert paths. induction groups as [|g groups IH] using rev_ind; intros paths.
  - unfold to_result. simpl. rewrite lookup_empty. split; [done|].
    intros (m & g & Hm & _). by rewrite lookup_nil in Hm.
  - rewrite to_result_snoc, result_step_label.
    destruct (label l g) as [name'|] eqn:Hlab.
    + destruct (decide (name' = name)) as [->|Hne].
      * rewrite lookup_insert_eq. split.
        -- intros [= <-]. exists (length groups), g. split_and?; try done.
           ++ by rewrite lookup_app_r, Nat.sub_diag by lia.
           ++ intros m' g' Hlt Hg'. apply lookup_lt_Some in Hg'.
              rewrite length_app in Hg'. simpl in Hg'. lia.
        -- intros (m & g0 & Hm & Hl0 & -> & Hlast).
           destruct (decide (m = length groups)) as [->|Hm'].
           ++ rewrite lookup_app_r, Nat.sub_diag in Hm by lia. by injection Hm as <-.
           ++ assert (m < length groups).
              { apply lookup_lt_Some in Hm. rewrite length_app in Hm. simpl in Hm. lia. }
              destruct (Hlast (length groups) g); [lia| |done].
              by rewrite lookup_app_r, Nat.sub_diag by lia.
      * rewrite lookup_insert_ne by done. rewrite IH. split.
        -- intros (m & g0 & Hm & Hl0 & -> & Hlast).
           exists m, g0. split_and?; try done.
           ++ by apply lookup_app_l_Some.
           ++ intros m' g' Hlt Hg'. apply lookup_app_Some in Hg' as [Hg'|[Hge Hg']].
              ** by eapply Hlast.
              ** apply list_lookup_singleton_Some in Hg' as [_ <-]. congruence.
        -- intros (m & g0 & Hm & Hl0 & -> & Hlast).
           apply lookup_app_Some in Hm as [Hm|[Hge Hm]].
           ++ exists m, g0. split_and?; try done.
              intros m' g' Hlt Hg'. eapply Hlast; [done|]. by apply lookup_app_l_Some.
           ++ apply list_lookup_singleton_Some in Hm as [_ <-]. congruence.
    + rewrite IH. split.
      * intros (m & g0 & Hm & Hl0 & -> & Hlast).
        exists m, g0. split_and?; try done.
        -- by apply lookup_app_l_Some.
        -- intros m' g' Hlt Hg'. apply lookup_app_Some in Hg' as [Hg'|[Hge Hg']].
           ++ by eapply Hlast.
           ++ apply list_lookup_singleton_Some in Hg' as [_ <-]. congruence.
      * intros (m & g0 & Hm & Hl0 & -> & Hlast).
        apply lookup_app_Some in Hm as [Hm|[Hge Hm]].
        -- exists m, g0. split_and?; try done.
           intros m' g' Hlt Hg'. eapply Hlast; [done|]. by apply lookup_app_l_Some.
        -- apply list_lookup_singleton_Some in Hm as [_ <-]. congruence.
Qed.

(** [group_by_metadata] in terms of the two passes on the initial store. *)
Lemma group_by_metadata_spec `{Interp} metas result :
  group_by_metadata metas = Some result ↔
  ∃ l, collect_file_info metas = Some l ∧ result = to_result l (second_pass l).2.
Proof.
  unfold group_by_metadata.
  destruct (collect_file_info metas) as [l|] eqn:Hl; simpl.
  - pose proof (collect_fresh _ _ Hl) as Hfresh.
    rewrite (second_pass_pure l Hfresh). cbn [snd]. rewrite to_result_mark.
    split.
    + intros [= <-]. exists l. split; [done|]. by rewrite (second_pass_pure l Hfresh).
    + intros (l' & [= <-] & ->). by rewrite (second_pass_pure l Hfresh).
  - split; [done|]. by intros (? & ? & _).
Qed.

(** ** Groups of the second pass *)

Lemma elem_of_concat {A} (x : A) (ls : list (list A)) :
  x ∈ concat ls ↔ ∃ l, l ∈ ls ∧ x ∈ l.
Proof.
  induction ls as [|l ls IH]; simpl.
  - split; [by intros ?%elem_of_nil|]. by intros (? & ?%elem_of_nil & _).
  - rewrite elem_of_app, IH. split.
    + intros [Hx|(l' & Hl' & Hx)]; [exists l; split; [left|done]|].
      exists l'. split; [by right|done].
    + intros (l' & [->|Hl']%elem_of_cons & Hx); [by left|]. right. eauto.
Qed.

Lemma is_match_spec f1 f2 : is_match f1 f2 = true ↔ matches f1 f2.
Proof.
  unfold is_match, matches.
  rewrite andb_true_iff, !orb_true_iff, !bool_decide_eq_true.
  assert (0 < size (artists f1 ∩ artists f2) ↔ artists f1 ∩ artists f2 ≠ ∅) as ->.
  { split.
    - intros Hs He. rewrite He, size_empty in Hs. lia.
    - intros Hne. destruct (decide (size (artists f1 ∩ artists f2) = 0)) as [Hz|]; [|lia].
      apply size_empty_iff in Hz. by apply leibniz_equiv in Hz. }
  tauto.
Qed.

Lemma match_at_spec l i j fi fj :
  l !! i = Some fi → l !! j = Some fj → match_at l i j ↔ matches fi fj.
Proof.
  intros Hi Hj. unfold match_at. rewrite Hi, Hj.
  rewrite <- is_match_spec. apply Is_true_true.
Qed.

Lemma second_pass_inv l :
  fresh l → pass_inv l (length l) (pure_pass l (length l)).1 (second_pass l).2.
Proof.
  intros Hl. rewrite (second_pass_pure l Hl). cbn [snd]. by apply pure_pass_inv.
Qed.

Lemma group_bound l g k :
  fresh l → g ∈ (second_pass l).2 → k ∈ g → k < length l.
Proof.
  intros Hl Hg Hk. destruct (second_pass_inv l Hl) as [_ Hbound _ Hclaimed _ _].
  apply Hbound, Hclaimed. apply elem_of_concat. eauto.
Qed.

Lemma group_paths_elem l g p :
  p ∈ group_paths l g ↔ ∃ k f, k ∈ g ∧ l !! k = Some f ∧ file_path f = p.
Proof.
  unfold group_paths. rewrite list_elem_of_omap. split.
  - intros (k & Hk & Hp). destruct (l !! k) as [f|] eqn:Hf; simplify_eq/=. eauto.
  - intros (k & f & Hk & Hf & <-). exists k. by rewrite Hf.
Qed.

Lemma group_paths_length l g :
  (∀ k, k ∈ g → k < length l) → length (group_paths l g) = length g.
Proof.
  unfold group_paths. induction g as [|k g IH]; intros Hg; [done|].
  csimpl. destruct (lookup_lt_is_Some_2 l k) as [f Hf]; [apply Hg; left|].
  rewrite Hf. simpl. f_equal. apply IH. intros; apply Hg; by right.
Qed.

(** Two positions of a list of lists with no repetition overall share no
    element. *)
Lemma concat_NoDup_disjoint {A} (gs : list (list A)) m1 m2 g1 g2 x :
  NoDup (concat gs) → gs !! m1 = Some g1 → gs !! m2 = Some g2 → m1 ≠ m2 →
  x ∈ g1 → x ∉ g2.
Proof.
  revert m1 m2. induction gs as [|g gs IH]; intros m1 m2 Hnd H1 H2 Hne Hx1 Hx2.
  { by rewrite lookup_nil in H1. }
  simpl in Hnd. apply NoDup_app in Hnd as (Hg & Hdisj & Hrest).
  destruct m1 as [|m1], m2 as [|m2]; simplify_eq/=.
  - eapply Hdisj; [done|]. apply elem_of_concat. exists g2. split; [|done].
    by eapply list_elem_of_lookup_2.
  - eapply Hdisj; [done|]. apply elem_of_concat. exists g1. split; [|done].
    by eapply list_elem_of_lookup_2.
  - eapply (IH m1 m2); eauto.
Qed.

Lemma concat_NoDup_each {A} (gs : list (list A)) g :
  NoDup (concat gs) → g ∈ gs → NoDup g.
Proof.
  induction gs as [|g0 gs IH]; intros Hnd Hg; [by apply elem_of_nil in Hg|].
  simpl in Hnd. apply NoDup_app in Hnd as (Hg0 & _ & Hrest).
  apply elem_of_cons in Hg as [->|Hg]; auto.
Qed.

(** Every entry of the result is a group of the second pass. *)
Lemma result_entry `{Interp} metas l result name paths :
  collect_file_info metas = Some l → group_by_metadata metas = Some result →
  result !! name = Some paths →
  ∃ m g, (second_pass l).2 !! m = Some g ∧ label l g = Some name ∧ paths = group_paths l g.
Proof.
  intros Hl (l' & Hl' & ->)%group_by_metadata_spec Hlook.
  assert (l' = l) as -> by congruence.
  apply to_result_lookup in Hlook as (m & g & ? & ? & ? & _). eauto.
Qed.

(** The shape of a group of the second pass: an anchor that no earlier
    group claimed, followed by the later positions that no earlier group
    claimed and that match the anchor. *)
Lemma group_shape l m g :
  fresh l → (second_pass l).2 !! m = Some g →
  ∃ a fa, l !! a = Some fa
    ∧ (a ∉ concat (take m (second_pass l).2))
    ∧ g = a :: members l (concat (take m (second_pass l).2)) a
    ∧ members l (concat (take m (second_pass l).2)) a ≠ [].
Proof.
  intros Hl Hg. destruct (second_pass_inv l Hl) as [_ _ _ _ _ Hshape].
  destruct (Hshape m g Hg) as (a & Ha & Hfree & -> & Hne).
  destruct (lookup_lt_is_Some_2 l a Ha) as [fa Hfa]. eauto 10.
Qed.

(** ** The claims about the grouping engine *)

(** C5. Every group that [group_by_metadata] returns has at least two
    member paths: a group that ends with its anchor alone is not kept. *)
Theorem C5_groups_have_two_members `{Interp} metas result name paths :
  group_by_metadata metas = Some result →
  result !! name = Some paths →
  2 ≤ length paths.
Proof.
  intros Hres Hlook.
  destruct (proj1 (group_by_metadata_spec _ _) Hres) as (l & Hl & _).
  pose proof (collect_fresh _ _ Hl) as Hfresh.
  destruct (result_entry _ _ _ _ _ Hl Hres Hlook) as (m & g & Hg & _ & ->).
  rewrite group_paths_length.
  - destruct (group_shape l m g Hfresh Hg) as (a & fa & _ & _ & -> & Hne).
    destruct (members _ _ _); [done|simpl; lia].
  - intros k Hk. eapply group_bound; [done| |done]. by eapply list_elem_of_lookup_2.
Qed.

Lemma C5_witness :
  group_by_metadata (H:=latin1) two_versions
    = Some {[ py "Song - x, y" := [py "A.mp3"; py "B.flac"] ]}
  ∧ 2 ≤ length [py "A.mp3"; py "B.flac"].
Proof.
  assert (group_by_metadata (H:=latin1) two_versions
          = Some {[ py "Song - x, y" := [py "A.mp3"; py "B.flac"] ]}) as Hrun
    by (vm_compute; reflexivity).
  split; [exact Hrun|].
  apply (C5_groups_have_two_members (H:=latin1) two_versions _ (py "Song - x, y") _ Hrun).
  vm_compute; reflexivity.
Defined.

(** C1. In every group of the engine the members after the first are
    exactly the later candidates, not claimed by an earlier group, that
    pass the test against the group's first member, the anchor: equal base
    titles, and artist sets that intersect or of which one includes the
    other.  The anchor itself is claimed by no earlier group, every entry of
    the result is such a group, and two members of a group need not pass the
    test against each other. *)
Theorem C1_members_admitted_against_anchor `{Interp} metas l :
  collect_file_info metas = Some l →
  (∀ m g, (second_pass l).2 !! m = Some g →
     ∃ a fa ms, g = a :: ms ∧ l !! a = Some fa
       ∧ (a ∉ concat (take m (second_pass l).2))
       ∧ ∀ j fj, l !! j = Some fj →
           (j ∈ ms ↔ a < j ∧ (j ∉ concat (take m (second_pass l).2)) ∧ matches fa fj))
  ∧ (∀ result name paths,
       group_by_metadata metas = Some result → result !! name = Some paths →
       ∃ m g, (second_pass l).2 !! m = Some g ∧ paths = group_paths l g)
  ∧ (∃ (l' : list file_info) a j k fj fk,
       fresh l' ∧ (second_pass l').2 = [[a; j; k]]
       ∧ l' !! j = Some fj ∧ l' !! k = Some fk ∧ ¬ matches fj fk).
Proof.
  intros Hl. pose proof (collect_fresh _ _ Hl) as Hfresh. split_and?.
  - intros m g Hg.
    destruct (group_shape l m g Hfresh Hg) as (a & fa & Hfa & Hfree & -> & _).
    exists a, fa, (members l (concat (take m (second_pass l).2)) a).
    split_and?; try done.
    intros j fj Hfj. etransitivity; [apply members_elem|].
    pose proof (match_at_spec l a j fa fj Hfa Hfj).
    apply lookup_lt_Some in Hfj. naive_solver lia.
  - intros result name paths Hres Hlook.
    destruct (result_entry _ _ _ _ _ Hl Hres Hlook) as (m & g & ? & _ & ?). eauto.
  - exists [FileInfo (py "P") (py "s") {[py "a"; py "b"]} false;
            FileInfo (py "Q") (py "s") {[py "a"]} false;
            FileInfo (py "R") (py "s") {[py "b"]} false],
           0, 1, 2, (FileInfo (py "Q") (py "s") {[py "a"]} false),
           (FileInfo (py "R") (py "s") {[py "b"]} false).
    split_and?; [by repeat constructor|vm_compute; reflexivity|done|done|].
    rewrite <- is_match_spec. vm_compute. discriminate.
Qed.

Lemma C1_witness :
  collect_file_info (H:=latin1) star_shape
    = Some [FileInfo (py "P.mp3") (py "song") {[py "a"; py "b"]} false;
            FileInfo (py "Q.mp3") (py "song") {[py "a"]} false;
            FileInfo (py "R.mp3") (py "song") {[py "b"]} false]
  ∧ ∃ m g, (second_pass [FileInfo (py "P.mp3") (py "song") {[py "a"; py "b"]} false;
                         FileInfo (py "Q.mp3") (py "song") {[py "a"]} false;
                         FileInfo (py "R.mp3") (py "song") {[py "b"]} false]).2 !! m = Some g
           ∧ [py "P.mp3"; py "Q.mp3"; py "R.mp3"]
             = group_paths [FileInfo (py "P.mp3") (py "song") {[py "a"; py "b"]} false;
                            FileInfo (py "Q.mp3") (py "song") {[py "a"]} false;
                            FileInfo (py "R.mp3") (py "song") {[py "b"]} false] g.
Proof.
  assert (collect_file_info (H:=latin1) star_shape
    = Some [FileInfo (py "P.mp3") (py "song") {[py "a"; py "b"]} false;
            FileInfo (py "Q.mp3") (py "song") {[py "a"]} false;
            FileInfo (py "R.mp3") (py "song") {[py "b"]} false]) as Hrun
    by (vm_compute; reflexivity).
  split; [exact Hrun|].
  destruct (C1_members_admitted_against_anchor (H:=latin1) star_shape _ Hrun)
    as (_ & Hentry & _).
  apply (Hentry {[ py "Song - a, b" := [py "P.mp3"; py "Q.mp3"; py "R.mp3"] ]}
                (py "Song - a, b")).
  - vm_compute; reflexivity.
  - vm_compute; reflexivity.
Defined.

Lemma path_inj l k1 k2 f1 f2 :
  NoDup (file_path <$> l) → l !! k1 = Some f1 → l !! k2 = Some f2 →
  file_path f1 = file_path f2 → k1 = k2.
Proof.
  intros Hnd H1 H2 Heq.
  eapply (NoDup_lookup _ _ _ (file_path f1) Hnd);
    rewrite list_lookup_fmap; [by rewrite H1|by rewrite H2, Heq].
Qed.

Lemma group_paths_NoDup l g :
  NoDup (file_path <$> l) → NoDup g → NoDup (group_paths l g).
Proof.
  intros Hl. induction g as [|k g IH]; intros Hg; [constructor|].
  apply NoDup_cons in Hg as [Hk Hg].
  unfold group_paths. csimpl. fold (group_paths l g).
  destruct (l !! k) as [f|] eqn:Hf; simpl; [|by apply IH].
  apply NoDup_cons. split; [|by apply IH].
  intros (k' & f' & Hk' & Hf' & Heq)%group_paths_elem.
  assert (k' = k) as -> by (by eapply path_inj). done.
Qed.

(** Where the candidates have distinct paths, the path lists of the
    result hold no path twice and share no path. *)
Lemma result_paths_distinct `{Interp} metas l result :
  collect_file_info metas = Some l →
  group_by_metadata metas = Some result →
  NoDup (file_path <$> l) →
  (∀ name paths, result !! name = Some paths → NoDup paths)
  ∧ (∀ name1 name2 paths1 paths2 p,
       name1 ≠ name2 → result !! name1 = Some paths1 → result !! name2 = Some paths2 →
       p ∈ paths1 → p ∉ paths2).
Proof.
  intros Hl Hres Hpaths. pose proof (collect_fresh _ _ Hl) as Hfresh.
  destruct (second_pass_inv l Hfresh) as [_ _ _ _ Hnd _].
  split.
  - intros name paths Hlook.
    destruct (result_entry _ _ _ _ _ Hl Hres Hlook) as (m & g & Hg & _ & ->).
    apply group_paths_NoDup; [done|].
    eapply concat_NoDup_each; [done|]. by eapply list_elem_of_lookup_2.
  - intros name1 name2 paths1 paths2 p Hne Hlook1 Hlook2 Hp1 Hp2.
    destruct (result_entry _ _ _ _ _ Hl Hres Hlook1) as (m1 & g1 & Hg1 & Hlab1 & ->).
    destruct (result_entry _ _ _ _ _ Hl Hres Hlook2) as (m2 & g2 & Hg2 & Hlab2 & ->).
    apply group_paths_elem in Hp1 as (k1 & f1 & Hk1 & Hf1 & Hpath1).
    apply group_paths_elem in Hp2 as (k2 & f2 & Hk2 & Hf2 & Hpath2).
    assert (k1 = k2) as -> by (eapply path_inj; eauto; congruence).
    assert (m1 ≠ m2) as Hm by (intros ->; congruence).
    by eapply (concat_NoDup_disjoint _ m1 m2 g1 g2 k2).
Qed.

(** Every member path of the result is the path of a candidate. *)
Lemma result_paths_origin `{Interp} metas l result name paths p :
  collect_file_info metas = Some l →
  group_by_metadata metas = Some result →
  result !! name = Some paths → p ∈ paths →
  ∃ meta f, meta ∈ metas ∧ candidate meta = Some (Some f) ∧ file_path f = p.
Proof.
  intros Hl Hres Hlook Hp.
  destruct (result_entry _ _ _ _ _ Hl Hres Hlook) as (m & g & _ & _ & ->).
  apply group_paths_elem in Hp as (k & f & _ & Hf & <-).
  destruct (collect_origin metas l f Hl) as (meta & ? & ?); [|by eauto].
  by eapply list_elem_of_lookup_2.
Qed.

(** C10.  The groups of the engine share no candidate: a position of
    [file_info_list] is claimed by at most one group, once.  Every member
    path of the result is the path of an input record that passed the
    first pass.  A path identifies its record: where the records that
    passed the first pass have distinct paths, no path occurs twice in a
    group or in two groups of the result. *)
Theorem C10_groups_are_disjoint `{Interp} metas l result :
  collect_file_info metas = Some l →
  group_by_metadata metas = Some result →
  NoDup (concat (second_pass l).2)
  ∧ (∀ name paths p, result !! name = Some paths → p ∈ paths →
       ∃ meta f, meta ∈ metas ∧ candidate meta = Some (Some f) ∧ file_path f = p)
  ∧ (NoDup (file_path <$> l) →
       (∀ name paths, result !! name = Some paths → NoDup paths)
       ∧ (∀ name1 name2 paths1 paths2 p,
            name1 ≠ name2 → result !! name1 = Some paths1 → result !! name2 = Some paths2 →
            p ∈ paths1 → p ∉ paths2)).
Proof.
  intros Hl Hres. pose proof (collect_fresh _ _ Hl) as Hfresh.
  destruct (second_pass_inv l Hfresh) as [_ _ _ _ Hnd _].
  split_and?.
  - done.
  - intros name paths p. by apply (result_paths_origin metas l).
  - by apply (result_paths_distinct metas).
Qed.

Lemma C10_witness :
  group_by_metadata (H:=latin1) two_groups
    = Some (<[ py "Song - x" := [py "P.mp3"; py "Q.mp3"] ]>
              {[ py "Tune - x" := [py "R.mp3"; py "S.mp3"] ]})
  ∧ NoDup [py "P.mp3"; py "Q.mp3"]
  ∧ ∀ p, p ∈ [py "P.mp3"; py "Q.mp3"] → p ∉ [py "R.mp3"; py "S.mp3"].
Proof.
  assert (collect_file_info (H:=latin1) two_groups
    = Some [FileInfo (py "P.mp3") (py "song") {[py "x"]} false;
            FileInfo (py "Q.mp3") (py "song") {[py "x"]} false;
            FileInfo (py "R.mp3") (py "tune") {[py "x"]} false;
            FileInfo (py "S.mp3") (py "tune") {[py "x"]} false]) as Hrun
    by (vm_compute; reflexivity).
  assert (group_by_metadata (H:=latin1) two_groups
    = Some (<[ py "Song - x" := [py "P.mp3"; py "Q.mp3"] ]>
              {[ py "Tune - x" := [py "R.mp3"; py "S.mp3"] ]})) as Hres
    by (vm_compute; reflexivity).
  split; [exact Hres|].
  destruct (C10_groups_are_disjoint (H:=latin1) two_groups _ _ Hrun Hres)
    as (_ & _ & Hpaths).
  destruct Hpaths as [Heach Hdisjoint].
  { apply (bool_decide_unpack _). vm_compute. exact I. }
  split.
  - apply (Heach (py "Song - x")). vm_compute; reflexivity.
  - intros p. apply (Hdisjoint (py "Song - x") (py "Tune - x")).
    + vm_compute; discriminate.
    + vm_compute; reflexivity.
    + vm_compute; reflexivity.
Defined.

(** The condition on the paths is needed: in [repeated_path], where one
    path stands for two records, this path is a member of both groups. *)
Lemma repeated_path_is_shared :
  ∃ result name1 name2 paths1 paths2 p,
    group_by_metadata (H:=latin1) repeated_path = Some result
    ∧ name1 ≠ name2
    ∧ result !! name1 = Some paths1 ∧ result !! name2 = Some paths2
    ∧ p ∈ paths1 ∧ p ∈ paths2.
Proof.
  exists (<[ py "Song - x" := [py "P.mp3"; py "Q.mp3"] ]>
            {[ py "Tune - x" := [py "P.mp3"; py "R.mp3"] ]}),
         (py "Song - x"), (py "Tune - x"),
         [py "P.mp3"; py "Q.mp3"], [py "P.mp3"; py "R.mp3"], (py "P.mp3").
  split_and?.
  - vm_compute; reflexivity.
  - vm_compute; discriminate.
  - vm_compute; reflexivity.
  - vm_compute; reflexivity.
  - left.
  - left.
Qed.

(** All members of a group have the base title of its anchor. *)
Lemma group_same_title l g i j fi fj :
  fresh l → g ∈ (second_pass l).2 → i ∈ g → j ∈ g →
  l !! i = Some fi → l !! j = Some fj → base_title fi = base_title fj.
Proof.
  intros Hl Hg Hi Hj Hfi Hfj.
  apply list_elem_of_lookup in Hg as [m Hg].
  destruct (group_shape l m g Hl Hg) as (a & fa & Hfa & _ & -> & _).
  assert (∀ k fk, k ∈ a :: members l (concat (take m (second_pass l).2)) a →
                  l !! k = Some fk → base_title fa = base_title fk) as Hanchor.
  { intros k fk [->|Hk]%elem_of_cons Hfk; [congruence|].
    apply members_elem in Hk as (_ & _ & Hm).
    apply (match_at_spec l a k fa fk Hfa Hfk) in Hm. by destruct Hm. }
  rewrite <- (Hanchor i fi Hi Hfi). by apply (Hanchor j).
Qed.

(** An unclaimed candidate that has a later unclaimed match anchors a group
    that holds this match. *)
Lemma anchor_claims l i j :
  fresh l → i < j < length l → match_at l i j →
  (∀ g, g ∈ (second_pass l).2 → i ∈ g → head g = Some i) →
  (∀ g a, g ∈ (second_pass l).2 → j ∈ g → head g = Some a → i ≤ a) →
  ∃ g, g ∈ (second_pass l).2 ∧ head g = Some i ∧ j ∈ g.
Proof.
  intros Hl Hij Hmatch Hi Hj.
  rewrite (second_pass_pure l Hl) in *. cbn [snd] in *.
  destruct (pure_pass_prefix l (S i) (length l)) as [rest Hrest]; [lia|].
  rewrite pure_pass_S in Hrest.
  pose proof (pure_pass_inv l i) as Hinv.
  destruct (pure_pass l i) as [C groups] eqn:Hrun. cbn [fst snd] in Hinv.
  destruct Hinv as [_ _ Hahead _ _ Hshape]; [lia|].
  assert (∀ k, k ∈ C → i ≤ k →
            ∃ g a, g ∈ (pure_pass l (length l)).2 ∧ k ∈ g ∧ head g = Some a ∧ a < i) as Hearlier.
  { intros k Hk Hle. apply Hahead in Hk; [|done].
    apply elem_of_concat in Hk as (g & Hg & Hkg).
    pose proof Hg as Hg'. apply list_elem_of_lookup in Hg' as [m Hm].
    destruct (Hshape m g Hm) as (a & Ha & _ & -> & _).
    exists (a :: members l (concat (take m groups)) a), a. split_and?; try done.
    destruct (pure_pass_prefix l i (length l)) as [rest' Hrest']; [lia|].
    rewrite Hrest', Hrun. cbn [snd]. apply elem_of_app. by left. }
  assert (i ∉ C) as HiC.
  { intros Hin. destruct (Hearlier i Hin) as (g & a & Hg & Hig & Ha & Hlt); [done|].
    specialize (Hi g Hg Hig). rewrite Ha in Hi. injection Hi as ->. lia. }
  assert (j ∈ members l C i) as Hjm.
  { apply members_elem. split_and?; [lia..| |done].
    intros Hin. destruct (Hearlier j Hin) as (g & a & Hg & Hjg & Ha & Hlt); [lia|].
    specialize (Hj g a Hg Hjg Ha). lia. }
  unfold pure_step in Hrest. rewrite bool_decide_eq_false_2 in Hrest by done.
  cbn [snd] in Hrest. rewrite bool_decide_eq_true_2 in Hrest.
  2:{ destruct (members l C i); [by apply elem_of_nil in Hjm|simpl; lia]. }
  exists (i :: members l C i). split_and?; [|done|by right].
  rewrite Hrest. apply elem_of_app. left. apply elem_of_app. right. left.
Qed.

(** A group whose label no other group has is the entry of this label. *)
Lemma result_of_unique_label `{Interp} l g name :
  fresh l → g ∈ (second_pass l).2 → label l g = Some name →
  (∀ g', g' ∈ (second_pass l).2 → label l g' = Some name → g' = g) →
  to_result l (second_pass l).2 !! name = Some (group_paths l g).
Proof.
  intros Hl Hg Hlab Huniq.
  pose proof Hg as Hg'. apply list_elem_of_lookup in Hg' as [m Hm].
  apply to_result_lookup. exists m, g. split_and?; try done.
  intros m' g' Hlt Hm' Hlab'.
  assert (g' = g) as -> by (apply Huniq; [by eapply list_elem_of_lookup_2|done]).
  destruct (second_pass_inv l Hl) as [_ _ _ _ Hnd _].
  destruct (group_shape l m g Hl Hm) as (a & _ & _ & _ & Heq & _).
  eapply (concat_NoDup_disjoint _ m m' g g a Hnd Hm Hm'); [lia|rewrite Heq; left..].
Qed.

(** C2, as amended.  Two candidates with different base titles are never
    members of one group.  Two candidates with equal base titles and
    intersecting artist sets are members of one group when the earlier of
    the two belongs to no group of an earlier anchor and the later to no
    group of an anchor before the earlier candidate: the earlier one then
    anchors the group.  This group is the entry of its label in the result
    when no other group has the same label. *)
Theorem C2_same_title_and_artists `{Interp} metas l result :
  collect_file_info metas = Some l →
  group_by_metadata metas = Some result →
  (∀ g i j fi fj, g ∈ (second_pass l).2 → i ∈ g → j ∈ g →
     l !! i = Some fi → l !! j = Some fj → base_title fi = base_title fj)
  ∧ (∀ i j fi fj, i < j → l !! i = Some fi → l !! j = Some fj →
       base_title fi = base_title fj → artists fi ∩ artists fj ≠ ∅ →
       (∀ g, g ∈ (second_pass l).2 → i ∈ g → head g = Some i) →
       (∀ g a, g ∈ (second_pass l).2 → j ∈ g → head g = Some a → i ≤ a) →
       ∃ g, g ∈ (second_pass l).2 ∧ head g = Some i ∧ j ∈ g
            ∧ ((∀ g', g' ∈ (second_pass l).2 → label l g' = label l g → g' = g) →
               result !! group_name fi = Some (group_paths l g))).
Proof.
  intros Hl Hres. pose proof (collect_fresh _ _ Hl) as Hfresh. split.
  - intros g i j fi fj. by apply group_same_title.
  - intros i j fi fj Hij Hfi Hfj Htitle Hart Hi Hj.
    destruct (anchor_claims l i j Hfresh) as (g & Hg & Hhead & Hjg); auto.
    { apply lookup_lt_Some in Hfj. lia. }
    { apply (match_at_spec l i j fi fj Hfi Hfj). split; [done|by left]. }
    exists g. split_and?; try done. intros Huniq.
    apply group_by_metadata_spec in Hres as (l' & Hl' & ->).
    assert (l' = l) as -> by congruence.
    assert (label l g = Some (group_name fi)) as Hlab.
    { unfold label. rewrite Hhead. simpl. by rewrite Hfi. }
    apply result_of_unique_label; try done.
    intros g' Hg' Hlab'. apply Huniq; [done|congruence].
Qed.

Lemma C2_witness :
  collect_file_info (H:=latin1) two_versions
    = Some [FileInfo (py "A.mp3") (py "song") {[py "x"; py "y"]} false;
            FileInfo (py "B.flac") (py "song") {[py "y"]} false]
  ∧ group_by_metadata (H:=latin1) two_versions
    = Some {[ py "Song - x, y" := [py "A.mp3"; py "B.flac"] ]}
  ∧ ∀ g i j fi fj,
      g ∈ (second_pass [FileInfo (py "A.mp3") (py "song") {[py "x"; py "y"]} false;
                        FileInfo (py "B.flac") (py "song") {[py "y"]} false]).2 →
      i ∈ g → j ∈ g →
      [FileInfo (py "A.mp3") (py "song") {[py "x"; py "y"]} false;
       FileInfo (py "B.flac") (py "song") {[py "y"]} false] !! i = Some fi →
      [FileInfo (py "A.mp3") (py "song") {[py "x"; py "y"]} false;
       FileInfo (py "B.flac") (py "song") {[py "y"]} false] !! j = Some fj →
      base_title fi = base_title fj.
Proof.
  assert (collect_file_info (H:=latin1) two_versions
    = Some [FileInfo (py "A.mp3") (py "song") {[py "x"; py "y"]} false;
            FileInfo (py "B.flac") (py "song") {[py "y"]} false]) as Hrun
    by (vm_compute; reflexivity).
  assert (group_by_metadata (H:=latin1) two_versions
    = Some {[ py "Song - x, y" := [py "A.mp3"; py "B.flac"] ]}) as Hres
    by (vm_compute; reflexivity).
  split; [exact Hrun|]. split; [exact Hres|].
  exact (proj1 (C2_same_title_and_artists (H:=latin1) two_versions _ _ Hrun Hres)).
Defined.

(** The statement without the conditions fails: in [chain] the second and
    third records have the same base title and share an artist, and the
    third is in no group, the second being claimed by the first. *)
Lemma C2_counterexample :
  ∃ l result fq fr,
    collect_file_info (H:=latin1) chain = Some l
    ∧ group_by_metadata (H:=latin1) chain = Some result
    ∧ l !! 1 = Some fq ∧ l !! 2 = Some fr
    ∧ base_title fq = base_title fr
    ∧ artists fq ∩ artists fr ≠ ∅
    ∧ (∀ g, g ∈ (second_pass l).2 → 2 ∉ g)
    ∧ (∀ name paths, result !! name = Some paths → file_path fr ∉ paths).
Proof.
  exists [FileInfo (py "P.mp3") (py "song") {[py "a"]} false;
          FileInfo (py "Q.mp3") (py "song") {[py "a"; py "b"]} false;
          FileInfo (py "R.mp3") (py "song") {[py "b"]} false],
         {[ py "Song - a" := [py "P.mp3"; py "Q.mp3"] ]},
         (FileInfo (py "Q.mp3") (py "song") {[py "a"; py "b"]} false),
         (FileInfo (py "R.mp3") (py "song") {[py "b"]} false).
  split_and?.
  - vm_compute; reflexivity.
  - vm_compute; reflexivity.
  - done.
  - done.
  - done.
  - vm_compute; discriminate.
  - intros g Hg.
    assert ((second_pass [FileInfo (py "P.mp3") (py "song") {[py "a"]} false;
                          FileInfo (py "Q.mp3") (py "song") {[py "a"; py "b"]} false;
                          FileInfo (py "R.mp3") (py "song") {[py "b"]} false]).2 = [[0; 1]])
      as Hgroups by (vm_compute; reflexivity).
    rewrite Hgroups in Hg. apply list_elem_of_singleton in Hg as ->.
    apply (bool_decide_unpack _). vm_compute. exact I.
  - intros name paths [<- <-]%lookup_singleton_Some.
    apply (bool_decide_unpack _). vm_compute. exact I.
Qed.

(** ** The survivor policy *)




































(** C7, on the code.  The sort key of a file is not its duration but the
    whole seconds read back from the ['length'] column, which shows minutes
    and seconds only.  Of the two takes of one song, the one of 200.9
    seconds in 4 MB and the one of 200.1 seconds in 5 MB, both are shown as
    [3:20]; the sizes decide, the shorter take is kept and the longer one is
    selected for deletion. *)
Theorem C7_longer_file_is_selected_for_deletion :
  extract_file_metadata (H:=latin1) (H0:=two_takes_host) (py "long.mp3") !! "duration"
    = Some (VFloat (2009 # 10))
  ∧ extract_file_metadata (H:=latin1) (H0:=two_takes_host) (py "short.mp3") !! "duration"
    = Some (VFloat (2001 # 10))
  ∧ Qlt (2001 # 10) (2009 # 10)
  ∧ extract_file_metadata (H:=latin1) (H0:=two_takes_host) (py "long.mp3") !! "size_mb"
    = Some (VInt 4)
  ∧ extract_file_metadata (H:=latin1) (H0:=two_takes_host) (py "short.mp3") !! "size_mb"
    = Some (VInt 5)
  ∧ group_by_metadata (H:=latin1)
      (extract_file_metadata (H:=latin1) (H0:=two_takes_host)
         <$> [py "long.mp3"; py "short.mp3"])
    = Some {[ py "Song - x" := [py "long.mp3"; py "short.mp3"] ]}
  ∧ _populate_tree (H:=latin1) (H0:=two_takes_host)
      [(py "Song - x", [py "long.mp3"; py "short.mp3"])]
    = Some ([[TreeRow 2 (Some (py "long.mp3")) (py "3:20") (py "4");
              TreeRow 3 (Some (py "short.mp3")) (py "3:20") (py "5")]],
            <[3 := false]> {[2 := false]})
  ∧ omap (entry_of_row (H:=latin1))
      [TreeRow 2 (Some (py "long.mp3")) (py "3:20") (py "4");
       TreeRow 3 (Some (py "short.mp3")) (py "3:20") (py "5")]
    = [(2, py "long.mp3", 200%Z, Finite (inject_Z 4));
       (3, py "short.mp3", 200%Z, Finite (inject_Z 5))]
  ∧ auto_select_longest (H:=latin1)
      [[TreeRow 2 (Some (py "long.mp3")) (py "3:20") (py "4");
        TreeRow 3 (Some (py "short.mp3")) (py "3:20") (py "5")]]
      (<[3 := false]> {[2 := false]})
    = Some ({[py "long.mp3"]}, <[3 := false]> {[2 := true]}).
Proof. split_and?; vm_compute; reflexivity. Qed.

(** ** The deletion loop *)

Section Deletion.
Context `{Interp} `{Host}.

(** What the loop does with one path on the file system [fs]: the reason
    it records when the deletion fails, and the file it removes otherwise. *)
Definition failure_of (fs : filesystem) (p : str) : option str :=
  match safe_path p with
  | Raise k msg => Some (deletion_failure p k msg)
  | Return q =>
      match fs !! q with
      | None => Some (deletion_failure p FileNotFoundError (py "No such file or directory"))
      | Some Removable => None
      | Some (Stuck k msg) => Some (deletion_failure p k msg)
      end
  end.

Definition removal_of (fs : filesystem) (p : str) : option str :=
  match safe_path p with
  | Raise _ _ => None
  | Return q => match fs !! q with Some Removable => Some q | _ => None end
  end.

(** Distinct paths of the set name distinct files. *)
Definition distinct_files (paths : list str) : Prop :=
  ∀ p1 p2 q, p1 ∈ paths → p2 ∈ paths →
    safe_path p1 = Return q → safe_path p2 = Return q → p1 = p2.

Lemma delete_step_spec fs n failed p :
  delete_step (fs, n, failed) p =
    (match removal_of fs p with Some q => delete q fs | None => fs end,
     match failure_of fs p with Some _ => n | None => n + 1 end,
     match failure_of fs p with Some r => failed ++ [r] | None => failed end).
Proof.
  unfold delete_step, removal_of, failure_of, os_remove.
  destruct (safe_path p) as [q|k msg]; [|done].
  by destruct (fs !! q) as [[|k msg]|].
Qed.

(** Every path gives one outcome: a deletion or one reason. *)
Lemma delete_fold_count paths : ∀ fs n failed,
  let '(_, n', failed') := foldl delete_step (fs, n, failed) paths in
  n' + length failed' = n + length failed + length paths.
Proof.
  induction paths as [|p paths IH]; intros fs n failed; cbn [foldl length]; [lia|].
  rewrite delete_step_spec.
  specialize (IH (match removal_of fs p with Some q => delete q fs | None => fs end)
                 (match failure_of fs p with Some _ => n | None => n + 1 end)
                 (match failure_of fs p with Some r => failed ++ [r] | None => failed end)).
  destruct (foldl delete_step _ paths) as [[fs' n'] failed'].
  destruct (failure_of fs p); rewrite ?length_app in IH; simpl in IH; lia.
Qed.

Lemma removal_of_key fs p q : removal_of fs p = Some q → safe_path p = Return q.
Proof.
  unfold removal_of. destruct (safe_path p) as [q'|]; [|done].
  destruct (fs !! q') as [[]|]; naive_solver.
Qed.

(** Removing one file does not change what happens to the paths that name
    other files. *)
Lemma failure_of_delete fs q p :
  safe_path p ≠ Return q → failure_of (delete q fs) p = failure_of fs p.
Proof.
  unfold failure_of. destruct (safe_path p) as [q'|]; [|done].
  intros Hne. by rewrite lookup_delete_ne by congruence.
Qed.

Lemma removal_of_delete fs q p :
  safe_path p ≠ Return q → removal_of (delete q fs) p = removal_of fs p.
Proof.
  unfold removal_of. destruct (safe_path p) as [q'|]; [|done].
  intros Hne. by rewrite lookup_delete_ne by congruence.
Qed.

Lemma delete_fold_spec paths : ∀ fs n failed,
  NoDup paths → distinct_files paths →
  ∃ fs', foldl delete_step (fs, n, failed) paths =
           (fs', n + length (filter (λ p, failure_of fs p = None) paths),
            failed ++ omap (failure_of fs) paths)
         ∧ ∀ q, fs' !! q = if decide (q ∈ omap (removal_of fs) paths) then None else fs !! q.
Proof.
  induction paths as [|p paths IH]; intros fs n failed Hnd Hdist.
  { exists fs. simpl. rewrite app_nil_r, Nat.add_0_r. split; [done|].
    intros q. first [done | by rewrite decide_False by apply not_elem_of_nil]. }
  apply NoDup_cons in Hnd as [Hp Hnd].
  assert (distinct_files paths) as Hdist'.
  { intros p1 p2 q ? ?. apply Hdist; by right. }
  assert (∀ q p', removal_of fs p = Some q → p' ∈ paths → safe_path p' ≠ Return q) as Hother.
  { intros q p' Hq Hp' Hkey. apply removal_of_key in Hq.
    assert (p = p') as -> by (eapply Hdist; [left|by right|done..]). done. }
  cbn [foldl]. rewrite delete_step_spec.
  destruct (removal_of fs p) as [q|] eqn:Hrem.
  - assert (failure_of fs p = None) as Hfail.
    { unfold removal_of, failure_of in *. destruct (safe_path p) as [q'|]; [|done].
      by destruct (fs !! q') as [[]|]. }
    rewrite Hfail.
    destruct (IH (delete q fs) (n + 1) failed Hnd Hdist') as (fs' & -> & Hfs').
    exists fs'. split.
    + rewrite filter_cons, decide_True by done. csimpl. rewrite Hfail.
      assert (filter (λ p0, failure_of (delete q fs) p0 = None) paths
              = filter (λ p0, failure_of fs p0 = None) paths) as ->.
      { apply filter_ext_in. intros p' Hp'. by rewrite failure_of_delete by eauto. }
      assert (omap (failure_of (delete q fs)) paths = omap (failure_of fs) paths) as ->.
      { apply list_omap_ext. apply Forall2_same_length_lookup_2; [done|].
        intros i x y Hx Hy. assert (x = y) as -> by congruence.
        apply failure_of_delete. eapply Hother; [done|]. by eapply list_elem_of_lookup_2. }
      f_equal. f_equal. simpl. lia.
    + intros q0. rewrite Hfs'. csimpl. rewrite Hrem.
      assert (omap (removal_of (delete q fs)) paths = omap (removal_of fs) paths) as ->.
      { apply list_omap_ext. apply Forall2_same_length_lookup_2; [done|].
        intros i x y Hx Hy. assert (x = y) as -> by congruence.
        apply removal_of_delete. eapply Hother; [done|]. by eapply list_elem_of_lookup_2. }
      destruct (decide (q0 ∈ omap (removal_of fs) paths)) as [Hin|Hin].
      * rewrite decide_True; [done|by right].
      * destruct (decide (q0 = q)) as [->|Hne].
        -- rewrite lookup_delete_eq. rewrite decide_True; [done|left].
        -- rewrite lookup_delete_ne by done. rewrite decide_False; [done|].
           rewrite elem_of_cons. naive_solver.
  - destruct (failure_of fs p) as [r|] eqn:Hfail.
    + destruct (IH fs n (failed ++ [r]) Hnd Hdist') as (fs' & -> & Hfs').
      exists fs'. split.
      * rewrite filter_cons, decide_False by (by rewrite Hfail). csimpl.
        rewrite Hfail. by rewrite <- app_assoc.
      * intros q0. rewrite Hfs'. csimpl. by rewrite Hrem.
    + unfold removal_of, failure_of in *. destruct (safe_path p) as [q'|]; [|done].
      by destruct (fs !! q') as [[]|].
Qed.

End Deletion.

Lemma omap_all_None {A B} (f : A → option B) (l : list A) :
  (∀ x, x ∈ l → f x = None) → omap f l = [].
Proof.
  induction l as [|x l IH]; intros Hl; [done|]. csimpl.
  rewrite Hl by left. apply IH. intros; apply Hl; by right.
Qed.

Lemma filter_all {A} (P : A → Prop) `{∀ x, Decision (P x)} (l : list A) :
  (∀ x, x ∈ l → P x) → filter P l = l.
Proof.
  induction l as [|x l IH]; intros Hl; [done|].
  rewrite filter_cons, decide_True by (apply Hl; left).
  f_equal. apply IH. intros; apply Hl; by right.
Qed.

(** C8. The loop gives every path of the set one outcome, a deletion or
    one recorded reason, and goes on after a failure: the files of the
    paths that can be removed are removed, whatever fails before or after
    them, and no other file is touched.  When exactly one path of the set is
    missing and the others can be removed, all the others are removed, the
    count is the size of the set minus one and the only reason recorded is
    the one of the missing path. *)
Theorem C8_deletion_failures_are_isolated `{Interp} `{Host} fs paths :
  NoDup paths → distinct_files paths →
  ∃ fs',
    delete_files fs paths =
      (fs', length (filter (λ p, failure_of fs p = None) paths), omap (failure_of fs) paths)
    ∧ length (filter (λ p, failure_of fs p = None) paths)
        + length (omap (failure_of fs) paths) = length paths
    ∧ (∀ q, fs' !! q = if decide (q ∈ omap (removal_of fs) paths) then None else fs !! q)
    ∧ (∀ missing q, missing ∈ paths → safe_path missing = Return q → fs !! q = None →
         (∀ p, p ∈ paths → p ≠ missing →
            ∃ q', safe_path p = Return q' ∧ fs !! q' = Some Removable) →
         delete_files fs paths =
           (fs', length paths - 1, [path_name (Path missing) ++ py ": File not found"])
         ∧ ∀ p q', p ∈ paths → safe_path p = Return q' → fs' !! q' = None).
Proof.
  intros Hnd Hdist.
  destruct (delete_fold_spec paths fs 0 [] Hnd Hdist) as (fs' & Hrun & Hfs').
  simpl in Hrun. exists fs'. split_and?; [done| |done|].
  - pose proof (delete_fold_count paths fs 0 []) as Hcount.
    rewrite Hrun in Hcount. simpl in Hcount. lia.
  - intros missing q Hmiss Hq Hnone Hothers.
    assert (failure_of fs missing = Some (path_name (Path missing) ++ py ": File not found"))
      as Hfail by (unfold failure_of; by rewrite Hq, Hnone).
    assert (∀ p, p ∈ paths → p ≠ missing → failure_of fs p = None) as Hok.
    { intros p Hp Hne. destruct (Hothers p Hp Hne) as (q' & Hq' & Hfile).
      unfold failure_of. by rewrite Hq', Hfile. }
    apply list_elem_of_split in Hmiss as (l1 & l2 & ->).
    apply NoDup_app in Hnd as (_ & Hl1 & Hl2). apply NoDup_cons in Hl2 as [Hl2 _].
    assert (∀ p, p ∈ l1 → failure_of fs p = None) as Hok1.
    { intros p Hp. apply Hok; [apply elem_of_app; by left|].
      intros ->. eapply Hl1; [done|left]. }
    assert (∀ p, p ∈ l2 → failure_of fs p = None) as Hok2.
    { intros p Hp. apply Hok; [apply elem_of_app; right; by right|]. by intros ->. }
    split.
    + unfold delete_files. rewrite Hrun. f_equal; [f_equal|].
      * rewrite filter_app, filter_cons, decide_False by (by rewrite Hfail).
        rewrite (filter_all _ l1 Hok1), (filter_all _ l2 Hok2).
        rewrite !length_app. simpl. lia.
      * rewrite omap_app. csimpl. rewrite Hfail.
        by rewrite (omap_all_None _ l1 Hok1), (omap_all_None _ l2 Hok2).
    + intros p q' Hp Hq'. rewrite Hfs'.
      destruct (decide (p = missing)) as [->|Hne].
      * case_decide; [done|]. assert (q' = q) as -> by congruence. done.
      * destruct (Hothers p Hp Hne) as (q'' & Hq'' & Hfile).
        assert (q'' = q') as -> by congruence.
        rewrite decide_True; [done|]. apply list_elem_of_omap. exists p.
        split; [done|]. unfold removal_of. by rewrite Hq', Hfile.
Qed.

Lemma C8_witness :
  NoDup [py "a.mp3"; py "b.mp3"; py "c.mp3"]
  ∧ ∃ fs',
      delete_files (H0:=denied_host)
        {[ py "a.mp3" := Removable; py "c.mp3" := Removable ]}
        [py "a.mp3"; py "b.mp3"; py "c.mp3"]
      = (fs', 2, [py "b.mp3: File not found"]).
Proof.
  assert (NoDup [py "a.mp3"; py "b.mp3"; py "c.mp3"]) as Hnd.
  { apply (bool_decide_unpack _). vm_compute. exact I. }
  split; [exact Hnd|].
  destruct (C8_deletion_failures_are_isolated (H:=latin1) (H0:=denied_host)
              {[ py "a.mp3" := Removable; py "c.mp3" := Removable ]}
              [py "a.mp3"; py "b.mp3"; py "c.mp3"] Hnd)
    as (fs' & _ & _ & _ & Hone).
  - intros p1 p2 q _ _ H1 H2. unfold safe_path in *. simpl in *. congruence.
  - exists fs'.
    destruct (Hone (py "b.mp3") (py "b.mp3")) as [Hrun _].
    + right. left.
    + reflexivity.
    + vm_compute; reflexivity.
    + intros p Hp Hne. exists p. split; [reflexivity|].
      apply elem_of_cons in Hp as [->|Hp]; [vm_compute; reflexivity|].
      apply elem_of_cons in Hp as [->|Hp]; [done|].
      apply elem_of_cons in Hp as [->|Hp]; [vm_compute; reflexivity|].
      by apply elem_of_nil in Hp.
    + exact Hrun.
Defined.

(** ** The records of the extractor *)

Ltac dict_lookup :=
  repeat first [ rewrite lookup_insert_eq
               | rewrite lookup_insert_ne by done
               | rewrite lookup_empty ].

(** A closed decidable fact, by evaluation. *)
Ltac by_evaluation := apply (bool_decide_unpack _); vm_compute; exact I.

Lemma failure_record_lookup `{Host} file_path_str msg key :
  failure_record file_path_str msg !! key =
    if decide (key = "success") then Some (VBool false)
    else if decide (key = "error") then Some (VStr msg)
    else if decide (key = "filename") then Some (VStr (path_name (Path file_path_str)))
    else if decide (key = "file_path") then Some (VStr file_path_str)
    else None.
Proof.
  unfold failure_record, dict_update. simpl.
  repeat (case_decide; [subst; by dict_lookup|]).
  by dict_lookup.
Qed.

Lemma failure_record_dom `{Host} file_path_str msg :
  dom (failure_record file_path_str msg)
    = ({["file_path"; "filename"; "error"; "success"]} : gset string).
Proof.
  unfold failure_record, dict_update. simpl.
  rewrite !dom_insert_L, dom_empty_L. set_solver.
Qed.

(** The record after an [OSError] of [os.stat]. *)
Definition stat_failure_record `{Interp} `{Host} (file_path_str file_path msg : str) : dict :=
  <["success" := VBool false]>
    (<["file_error" := VStr msg]> (initial_metadata file_path_str file_path)).

Lemma stat_failure_record_tags `{Interp} `{Host} file_path_str fp msg key :
  key ∈ tag_keys →
  stat_failure_record file_path_str fp msg !! key = None
  ∨ stat_failure_record file_path_str fp msg !! key = Some (VStr []).
Proof.
  unfold tag_keys, stat_failure_record, initial_metadata, dict_update. simpl.
  intros Hkey.
  repeat (apply elem_of_cons in Hkey as [->|Hkey]; [dict_lookup; by eauto|]).
  by apply elem_of_nil in Hkey.
Qed.

Lemma stat_failure_record_lookup `{Interp} `{Host} file_path_str fp msg :
  stat_failure_record file_path_str fp msg !! "success" = Some (VBool false)
  ∧ stat_failure_record file_path_str fp msg !! "file_path" = Some (VStr file_path_str)
  ∧ stat_failure_record file_path_str fp msg !! "filename" = Some (VStr (path_name fp))
  ∧ stat_failure_record file_path_str fp msg !! "file_error" = Some (VStr msg)
  ∧ stat_failure_record file_path_str fp msg !! "error" = None
  ∧ stat_failure_record file_path_str fp msg !! "quality"
      = Some (VStr (get_audio_quality_indicator fp))
  ∧ stat_failure_record file_path_str fp msg !! "modified_date" = Some (VStr (py "Unknown"))
  ∧ stat_failure_record file_path_str fp msg !! "created_date" = Some (VStr (py "Unknown"))
  ∧ stat_failure_record file_path_str fp msg !! "size_bytes" = Some (VInt 0)
  ∧ stat_failure_record file_path_str fp msg !! "size_mb" = Some (VInt 0).
Proof.
  unfold stat_failure_record, initial_metadata, dict_update. cbn [foldl fst snd].
  split_and?; by dict_lookup.
Qed.

Section ExtractorFacts.
Context `{Interp} `{Host}.

(** The keys that the statistics of the file fill in. *)
Definition stat_keys : list string :=
  ["size_bytes"; "size_mb"; "modified"; "modified_date"; "created"; "created_date"].

Lemma initial_metadata_lookup file_path_str fp :
  initial_metadata file_path_str fp !! "file_path" = Some (VStr file_path_str)
  ∧ initial_metadata file_path_str fp !! "filename" = Some (VStr (path_name fp))
  ∧ initial_metadata file_path_str fp !! "success" = Some (VBool true)
  ∧ initial_metadata file_path_str fp !! "title" = Some (VStr [])
  ∧ initial_metadata file_path_str fp !! "contributing_artists" = Some (VStr [])
  ∧ initial_metadata file_path_str fp !! "size_mb" = Some (VInt 0)
  ∧ initial_metadata file_path_str fp !! "duration_formatted" = Some (VStr [])
  ∧ initial_metadata file_path_str fp !! "quality"
      = Some (VStr (get_audio_quality_indicator fp)).
Proof.
  unfold initial_metadata, dict_update. cbn [foldl fst snd]. split_and?; by dict_lookup.
Qed.

Lemma stat_fields_other metadata stat metadata' key :
  stat_fields metadata stat = Return metadata' → key ∉ stat_keys →
  metadata' !! key = metadata !! key.
Proof.
  unfold stat_fields, stat_keys. intros Hrun Hkey.
  assert (key ≠ "size_bytes" ∧ key ≠ "size_mb" ∧ key ≠ "modified"
          ∧ key ≠ "modified_date" ∧ key ≠ "created" ∧ key ≠ "created_date")
    as (? & ? & ? & ? & ? & ?).
  { split_and?; intros ->; apply Hkey; by_evaluation. }
  destruct (format_timestamp (st_mtime stat)); [|done].
  destruct is_windows.
  - destruct (format_timestamp (st_ctime stat)); [|done].
    injection Hrun as <-. by rewrite !lookup_insert_ne by done.
  - destruct (st_birthtime stat) as [birthtime|].
    + destruct (format_timestamp birthtime); [|done].
      injection Hrun as <-. by rewrite !lookup_insert_ne by done.
    + injection Hrun as <-. by rewrite !lookup_insert_ne by done.
Qed.

Lemma stat_fields_size metadata stat metadata' :
  stat_fields metadata stat = Return metadata' →
  metadata' !! "size_mb"
    = Some (VInt (py_round (Qdiv (inject_Z (st_size stat)) (inject_Z (1024 * 1024))))).
Proof.
  unfold stat_fields. intros Hrun.
  destruct (format_timestamp (st_mtime stat)); [|done].
  destruct is_windows.
  - destruct (format_timestamp (st_ctime stat)); [|done].
    injection Hrun as <-. by dict_lookup.
  - destruct (st_birthtime stat) as [birthtime|].
    + destruct (format_timestamp birthtime); [|done].
      injection Hrun as <-. by dict_lookup.
    + injection Hrun as <-. by dict_lookup.
Qed.

(** The keys that the tag reader leaves as they are. *)
Definition kept_keys : list string :=
  ["file_path"; "filename"; "success"; "size_mb"; "size_bytes"; "quality";
   "modified_date"; "created_date"].

Lemma tag_fields_lookup metadata tag :
  tag_fields metadata tag !! "title" = Some (VStr (or_empty (tag_title tag)))
  ∧ tag_fields metadata tag !! "contributing_artists"
      = Some (VStr (extract_comprehensive_artists tag))
  ∧ tag_fields metadata tag !! "raw_artists" = Some (VStr (extract_comprehensive_artists tag))
  ∧ tag_fields metadata tag !! "artist" = Some (VStr (extract_comprehensive_artists tag))
  ∧ (∀ key, key ∈ kept_keys → tag_fields metadata tag !! key = metadata !! key)
  ∧ tag_fields metadata tag !! "duration" = Some (float_or_0 (tag_duration tag))
  ∧ tag_fields metadata tag !! "duration_formatted"
      = match float_or_0 (tag_duration tag) with
        | VFloat duration => Some (VStr (format_duration duration))
        | _ => metadata !! "duration_formatted"
        end.
Proof.
  unfold tag_fields, dict_update, dict_get, kept_keys. cbn [foldl fst snd].
  dict_lookup. cbn [default from_option id].
  destruct (float_or_0 (tag_duration tag)) as [| |duration|];
    (split_and?; [by dict_lookup..| | |]);
    try (intros key Hkey;
         repeat (apply elem_of_cons in Hkey as [->|Hkey]; [by dict_lookup|]);
         by apply elem_of_nil in Hkey).
  all: by dict_lookup.
Qed.

(** The shapes of a record, and what leads to each. *)
Lemma extract_file_metadata_cases file_path_str :
  (∃ msg, extract_file_metadata file_path_str = failure_record file_path_str msg
     ∧ ((∃ k, safe_path file_path_str = Raise k msg)
        ∨ (∃ fp k, safe_path file_path_str = Return fp ∧ os_stat fp = Raise k msg
             ∧ is_OSError k = false)
        ∨ (∃ fp stat k, safe_path file_path_str = Return fp ∧ os_stat fp = Return stat
             ∧ stat_fields (initial_metadata file_path_str fp) stat = Raise k msg)))
  ∨ (∃ fp k msg, safe_path file_path_str = Return fp ∧ os_stat fp = Raise k msg
       ∧ is_OSError k = true
       ∧ extract_file_metadata file_path_str = stat_failure_record file_path_str fp msg)
  ∨ (∃ fp stat metadata,
       safe_path file_path_str = Return fp ∧ os_stat fp = Return stat
       ∧ stat_fields (initial_metadata file_path_str fp) stat = Return metadata
       ∧ ((METADATA_AVAILABLE = false ∧ extract_file_metadata file_path_str = metadata)
          ∨ (∃ k msg, METADATA_AVAILABLE = true ∧ TinyTag_get fp = Raise k msg
               ∧ extract_file_metadata file_path_str
                 = <["metadata_error" := VStr msg]> metadata)
          ∨ (∃ tag, METADATA_AVAILABLE = true ∧ TinyTag_get fp = Return tag
               ∧ extract_file_metadata file_path_str = tag_fields metadata tag))).
Proof.
  unfold extract_file_metadata.
  destruct (safe_path file_path_str) as [fp|k msg]; [|left; eauto].
  destruct (os_stat fp) as [stat|k msg] eqn:Hstat.
  - destruct (stat_fields _ stat) as [metadata|k msg] eqn:Hfields.
    2:{ left. exists msg. split; [done|]. right; right. by exists fp, stat, k. }
    right. right. exists fp, stat, metadata. split_and?; try done.
    assert (dict_get metadata "success" (VBool false) = VBool true) as Hsucc.
    { unfold dict_get. rewrite (stat_fields_other _ _ _ "success" Hfields).
      - by destruct (initial_metadata_lookup file_path_str fp) as (_ & _ & -> & _).
      - by_evaluation. }
    rewrite Hsucc. simpl. rewrite andb_true_r.
    destruct METADATA_AVAILABLE; [|by left].
    destruct (TinyTag_get fp) as [tag|k msg].
    + right. right. by exists tag.
    + right. left. by exists k, msg.
  - destruct (is_OSError k) eqn:Hk.
    2:{ left. exists msg. split; [done|]. right; left. by exists fp, k. }
    right. left. exists fp, k, msg. split_and?; try done.
    unfold dict_get. rewrite lookup_insert_eq. simpl. by rewrite andb_false_r.
Qed.

(** What every record holds. *)
Lemma record_shape file_path_str :
  ∃ name b size_mb d q,
    extract_file_metadata file_path_str !! "file_path" = Some (VStr file_path_str)
    ∧ extract_file_metadata file_path_str !! "filename" = Some (VStr name)
    ∧ extract_file_metadata file_path_str !! "success" = Some (VBool b)
    ∧ (b = true →
         extract_file_metadata file_path_str !! "size_mb" = Some (VInt size_mb)
         ∧ extract_file_metadata file_path_str !! "duration_formatted" = Some (VStr d)
         ∧ extract_file_metadata file_path_str !! "quality" = Some (VStr q))
    ∧ (b = false →
         (∃ msg, extract_file_metadata file_path_str = failure_record file_path_str msg)
         ∨ (∃ fp msg, extract_file_metadata file_path_str
                        = stat_failure_record file_path_str fp msg)).
Proof.
  destruct (extract_file_metadata_cases file_path_str)
    as [(msg & Hrec & _)|[(fp & k & msg & _ & _ & _ & Hrec)
       |(fp & stat & metadata & Hsafe & Hstat & Hfields & Hcase)]].
  - exists (path_name (Path file_path_str)), false, 0%Z, [], [].
    rewrite Hrec, !failure_record_lookup. simpl. split_and?; try done. left. by exists msg.
  - destruct (stat_failure_record_lookup file_path_str fp msg) as (E1 & E2 & E3 & _).
    exists (path_name fp), false, 0%Z, [], []. rewrite Hrec.
    split_and?; try done. right. by exists fp, msg.
  - destruct (initial_metadata_lookup file_path_str fp)
      as (Hpath & Hname & Hsucc & _ & _ & _ & Hdur & Hq).
    assert (∀ key, key ∉ stat_keys →
              metadata !! key = initial_metadata file_path_str fp !! key) as Hkeep.
    { intros key Hkey. by eapply stat_fields_other. }
    pose proof (stat_fields_size _ _ _ Hfields) as Hsize.
    pose proof (Hkeep "file_path" ltac:(by_evaluation)) as E1.
    pose proof (Hkeep "filename" ltac:(by_evaluation)) as E2.
    pose proof (Hkeep "success" ltac:(by_evaluation)) as E3.
    pose proof (Hkeep "duration_formatted" ltac:(by_evaluation)) as E4.
    pose proof (Hkeep "quality" ltac:(by_evaluation)) as E5.
    rewrite Hpath in E1. rewrite Hname in E2. rewrite Hsucc in E3.
    rewrite Hdur in E4. rewrite Hq in E5.
    destruct Hcase as [[_ ->]|[(k & msg & _ & _ & ->)|(tag & _ & _ & ->)]].
    + exists (path_name fp), true,
        (py_round (Qdiv (inject_Z (st_size stat)) (inject_Z (1024 * 1024)))), [],
        (get_audio_quality_indicator fp).
      by rewrite E1, E2, E3, E4, E5, Hsize.
    + exists (path_name fp), true,
        (py_round (Qdiv (inject_Z (st_size stat)) (inject_Z (1024 * 1024)))), [],
        (get_audio_quality_indicator fp).
      rewrite !lookup_insert_ne by done.
      by rewrite E1, E2, E3, E4, E5, Hsize.
    + destruct (tag_fields_lookup metadata tag) as (_ & _ & _ & _ & Hsame & _ & Hdur').
      pose proof (Hsame "file_path" ltac:(by_evaluation)) as S1.
      pose proof (Hsame "filename" ltac:(by_evaluation)) as S2.
      pose proof (Hsame "success" ltac:(by_evaluation)) as S3.
      pose proof (Hsame "size_mb" ltac:(by_evaluation)) as S4.
      pose proof (Hsame "quality" ltac:(by_evaluation)) as S5.
      assert (∃ d, tag_fields metadata tag !! "duration_formatted" = Some (VStr d)) as [d Hd].
      { rewrite Hdur'. destruct (float_or_0 _); rewrite ?E4; eauto. }
      exists (path_name fp), true,
        (py_round (Qdiv (inject_Z (st_size stat)) (inject_Z (1024 * 1024)))), d,
        (get_audio_quality_indicator fp).
      by rewrite Hd, S1, S2, S3, S4, S5, E1, E2, E3, E5, Hsize.
Qed.

End ExtractorFacts.

(** C9, as amended.  A record without success is one of two records.  The
    first holds the path, the file name, the reason under ['error'] and
    [success = False], and no other key; it is what the outer handler
    builds, for instance when [os.stat] raises something else than an
    [OSError], or when the resolution of the path raises something else
    than an [OSError] or a [ValueError].  The second is built when
    [os.stat] raises an [OSError]: it is the initial dictionary with
    [success = False] and the reason under ['file_error'], so it holds no
    key ['error'] and keeps the quality label of the extension and the
    defaults of the other fields.  In both, every key of tag data is absent
    or holds the empty string.  An [OSError] or [ValueError] of the
    resolution of the path is no failure of the extraction: [safe_path]
    falls back on the path as given, and the file is read under it. *)
Theorem C9_failure_records_carry_no_tags `{Interp} `{Host} file_path_str :
  (∀ k msg, is_windows = true → path_resolve file_path_str = Raise k msg →
     if is_OSError k || bool_decide (k = ValueError)
     then safe_path file_path_str = Return (Path file_path_str)
     else extract_file_metadata file_path_str = failure_record file_path_str msg)
  ∧ (∀ fp k msg, safe_path file_path_str = Return fp → os_stat fp = Raise k msg →
       extract_file_metadata file_path_str =
         if is_OSError k then stat_failure_record file_path_str fp msg
         else failure_record file_path_str msg)
  ∧ (extract_file_metadata file_path_str !! "success" = Some (VBool false) →
       (∃ msg, extract_file_metadata file_path_str = failure_record file_path_str msg)
       ∨ (∃ fp k msg, safe_path file_path_str = Return fp ∧ os_stat fp = Raise k msg
            ∧ is_OSError k = true
            ∧ extract_file_metadata file_path_str
              = stat_failure_record file_path_str fp msg))
  ∧ (extract_file_metadata file_path_str !! "success" = Some (VBool false) →
       ∀ key, key ∈ tag_keys →
         extract_file_metadata file_path_str !! key = None
         ∨ extract_file_metadata file_path_str !! key = Some (VStr []))
  ∧ (∀ msg,
       dom (failure_record file_path_str msg)
         = ({["file_path"; "filename"; "error"; "success"]} : gset string)
       ∧ failure_record file_path_str msg !! "success" = Some (VBool false)
       ∧ failure_record file_path_str msg !! "file_path" = Some (VStr file_path_str)
       ∧ failure_record file_path_str msg !! "filename"
           = Some (VStr (path_name (Path file_path_str)))
       ∧ failure_record file_path_str msg !! "error" = Some (VStr msg)
       ∧ ∀ key, key ∈ tag_keys → failure_record file_path_str msg !! key = None)
  ∧ (∀ fp msg,
       stat_failure_record file_path_str fp msg !! "success" = Some (VBool false)
       ∧ stat_failure_record file_path_str fp msg !! "file_path" = Some (VStr file_path_str)
       ∧ stat_failure_record file_path_str fp msg !! "filename" = Some (VStr (path_name fp))
       ∧ stat_failure_record file_path_str fp msg !! "file_error" = Some (VStr msg)
       ∧ stat_failure_record file_path_str fp msg !! "error" = None
       ∧ stat_failure_record file_path_str fp msg !! "quality"
           = Some (VStr (get_audio_quality_indicator fp))
       ∧ ∀ key, key ∈ tag_keys →
           stat_failure_record file_path_str fp msg !! key = None
           ∨ stat_failure_record file_path_str fp msg !! key = Some (VStr [])).
Proof.
  assert (∀ msg key, key ∈ tag_keys → failure_record file_path_str msg !! key = None)
    as Hnotags.
  { intros msg key Hkey. rewrite failure_record_lookup.
    unfold tag_keys in Hkey.
    repeat (apply elem_of_cons in Hkey as [->|Hkey]; [done|]).
    by apply elem_of_nil in Hkey. }
  assert (extract_file_metadata file_path_str !! "success" = Some (VBool false) →
       (∃ msg, extract_file_metadata file_path_str = failure_record file_path_str msg)
       ∨ (∃ fp k msg, safe_path file_path_str = Return fp ∧ os_stat fp = Raise k msg
            ∧ is_OSError k = true
            ∧ extract_file_metadata file_path_str
              = stat_failure_record file_path_str fp msg)) as Hcases.
  { intros Hsucc.
    destruct (extract_file_metadata_cases file_path_str)
      as [(msg & Hrec & _)|[(fp & k & msg & ? & ? & ? & Hrec)|(fp & stat & metadata & _)]].
    - left. by exists msg.
    - right. by exists fp, k, msg.
    - destruct (record_shape file_path_str) as (? & b & ? & ? & ? & _ & _ & Hb & _ & Hfalse).
      assert (b = false) as -> by congruence.
      destruct (Hfalse eq_refl) as [[msg ?]|(fp' & msg & ?)]; [left; by exists msg|].
      destruct (extract_file_metadata_cases file_path_str)
        as [(msg' & ? & _)|[(fp'' & k & msg'' & ? & ? & ? & ?)
           |(fp'' & stat' & metadata' & Hsafe & Hstat & Hfields & Hcase)]];
        [left; by exists msg'|right; by exists fp'', k, msg''|].
      exfalso.
      pose proof (stat_fields_other _ _ _ "success" Hfields ltac:(by_evaluation)) as E.
      destruct (initial_metadata_lookup file_path_str fp'') as (_ & _ & E0 & _).
      rewrite E0 in E.
      destruct Hcase as [[_ Hrec]|[(k & msg' & _ & _ & Hrec)|(tag & _ & _ & Hrec)]];
        rewrite Hrec in Hsucc.
      + congruence.
      + rewrite lookup_insert_ne in Hsucc by done. congruence.
      + destruct (tag_fields_lookup metadata' tag) as (_ & _ & _ & _ & Hsame & _).
        rewrite (Hsame "success") in Hsucc by by_evaluation. congruence. }
  split_and?.
  - intros k msg Hwin Hresolve. unfold extract_file_metadata, safe_path.
    rewrite Hwin, Hresolve. by destruct (is_OSError k || bool_decide (k = ValueError)).
  - intros fp k msg Hsafe Hstat. unfold extract_file_metadata. rewrite Hsafe, Hstat.
    destruct (is_OSError k); [|done].
    unfold dict_get. rewrite lookup_insert_eq. simpl. by rewrite andb_false_r.
  - exact Hcases.
  - intros Hsucc key Hkey.
    destruct (Hcases Hsucc) as [[msg ->]|(fp & k & msg & _ & _ & _ & ->)].
    + left. by apply Hnotags.
    + by apply stat_failure_record_tags.
  - intros msg. split_and?; [apply failure_record_dom|by rewrite failure_record_lookup..|].
    apply Hnotags.
  - intros fp msg.
    destruct (stat_failure_record_lookup file_path_str fp msg)
      as (? & ? & ? & ? & ? & ? & _).
    split_and?; try done. intros key. apply stat_failure_record_tags.
Qed.

(** On a Windows host where the resolution of the path raises a
    [RuntimeError], the record is the one of the outer handler; where it
    raises an [OSError], the path is used as given. *)
Lemma C9_witness :
  extract_file_metadata (H:=latin1) (H0:=looping_host) (py "a.mp3")
    = failure_record (H0:=looping_host) (py "a.mp3") (py "Symlink loop from 'a.mp3'")
  ∧ safe_path (H0:=unresolvable_host) (py "a.mp3") = Return (py "a.mp3").
Proof.
  split.
  - destruct (C9_failure_records_carry_no_tags (H:=latin1) (H0:=looping_host) (py "a.mp3"))
      as (Hresolve & _).
    exact (Hresolve OtherException (py "Symlink loop from 'a.mp3'") eq_refl eq_refl).
  - destruct (C9_failure_records_carry_no_tags (H:=latin1) (H0:=unresolvable_host)
                (py "a.mp3")) as (Hresolve & _).
    exact (Hresolve OSError (py "[WinError 1920] The file cannot be accessed")
             eq_refl eq_refl).
Defined.

(** The claim as stated fails in two ways.  On a host where [os.stat] is
    denied, the record of ["a.flac"] has [success = False] and no key
    ['error'], and it holds the quality label and the default dates besides
    the path, the file name and the reason.  On a Windows host where the
    resolution of the path fails with an [OSError], the record of
    ["a.mp3"] has [success = True], no reason, and the tags of the file. *)
Lemma C9_counterexample :
  extract_file_metadata (H:=latin1) (H0:=denied_host) (py "a.flac") !! "success"
    = Some (VBool false)
  ∧ extract_file_metadata (H:=latin1) (H0:=denied_host) (py "a.flac") !! "quality"
    = Some (VStr (py "Lossless"))
  ∧ extract_file_metadata (H:=latin1) (H0:=denied_host) (py "a.flac") !! "modified_date"
    = Some (VStr (py "Unknown"))
  ∧ extract_file_metadata (H:=latin1) (H0:=denied_host) (py "a.flac") !! "error" = None
  ∧ dom (extract_file_metadata (H:=latin1) (H0:=denied_host) (py "a.flac"))
    ≠ ({["file_path"; "filename"; "error"; "success"]} : gset string)
  ∧ path_resolve (Host:=unresolvable_host) (py "a.mp3")
    = Raise OSError (py "[WinError 1920] The file cannot be accessed")
  ∧ extract_file_metadata (H:=latin1) (H0:=unresolvable_host) (py "a.mp3") !! "success"
    = Some (VBool true)
  ∧ extract_file_metadata (H:=latin1) (H0:=unresolvable_host) (py "a.mp3") !! "error" = None
  ∧ extract_file_metadata (H:=latin1) (H0:=unresolvable_host) (py "a.mp3") !! "title"
    = Some (VStr (py "Song")).
Proof.
  split_and?; try (vm_compute; reflexivity).
  intros Hdom.
  assert ("quality" ∈ dom (extract_file_metadata (H:=latin1) (H0:=denied_host) (py "a.flac")))
    as Hin by (apply elem_of_dom; eexists; vm_compute; reflexivity).
  rewrite Hdom in Hin.
  repeat (apply elem_of_union in Hin as [Hin|Hin]);
    apply elem_of_singleton in Hin; discriminate.
Qed.

(** ** The claims about the normalisers *)

(** C3, as amended.  ["Artist A feat. Artist B"] normalises to the two
    names: [feat.] between spaces is one of the word delimiters, so the
    string is split there and the second artist is kept.  The credit is
    dropped when it is spelled [featuring], which is not a delimiter. *)
Theorem C3_feat_is_a_delimiter :
  normalize_artists (H:=latin1) (py "Artist A feat. Artist B")
    = {[py "artist a"; py "artist b"]}
  ∧ clean_artist_string (H:=latin1) (py "Artist A feat. Artist B") = py "artist a,artist b"
  ∧ normalize_artists (H:=latin1) (py "Artist A featuring Artist B") = {[py "artist a"]}.
Proof. split_and?; vm_compute; reflexivity. Qed.

(** The claim as stated fails: the result is not the one-name set. *)
Lemma C3_counterexample :
  normalize_artists (H:=latin1) (py "Artist A feat. Artist B") ≠ {[py "artist a"]}.
Proof. by_evaluation. Qed.

(** C4, on the code.  The accented spelling loses its last letter: NFKC
    keeps U+00E9 in one code point, which the ASCII step then drops, so
    ["Beyoncé"] gives the name [beyonc] and not the name [beyonce] of the
    plain spelling.  The two artist sets differ.  The spelling with a
    combining accent, U+0065 U+0301, fares no better: NFKC composes the
    pair into U+00E9 first. *)
Theorem C4_accented_letter_is_dropped :
  normalize_artists (H:=latin1) (py "Beyonc" ++ [233%N]) = {[py "beyonc"]}
  ∧ normalize_artists (H:=latin1) (py "beyonce") = {[py "beyonce"]}
  ∧ normalize_artists (H:=latin1) (py "Beyonc" ++ [233%N])
    ≠ normalize_artists (H:=latin1) (py "beyonce")
  ∧ nfkc (Interp:=latin1) (py "beyonce" ++ [769%N]) = py "beyonc" ++ [233%N]
  ∧ normalize_artists (H:=latin1) (py "Beyonce" ++ [769%N]) = {[py "beyonc"]}
  ∧ normalize_single_artist_name (H:=latin1) (py "Beyonc" ++ [233%N]) = py "beyonc".
Proof. split_and?; first [vm_compute; reflexivity|by_evaluation]. Qed.

(** C6. Both ["Song (Radio Edit)"] and ["song - extended mix"] have the
    base title ["song"]. *)
Theorem C6_version_tags_are_removed :
  extract_base_title (H:=latin1) (py "Song (Radio Edit)") = py "song"
  ∧ extract_base_title (H:=latin1) (py "song - extended mix") = py "song".
Proof. split; vm_compute; reflexivity. Qed.

(** ** Strings and patterns: what the operations keep *)

Section StringFacts.
Context `{Interp}.
















End StringFacts.

(** ** The shape of the normalised names *)

Section NameFacts.
Context `{Interp}.



End NameFacts.

Section NormaliserProperties.
Context `{Interp}.








End NormaliserProperties.

(** ** Properties of the extractor *)

Section ExtractorProperties.
Context `{Interp} `{Host}.






End ExtractorProperties.




(** ** Durations: what is shown and what is read back *)





















(** ** The tree that [_populate_tree] builds *)








Section Population.
Context `{Interp} `{Host}.

(** The test of [_populate_tree] on the record of a file. *)
Definition has_success (file_path : str) : Prop :=
  truthy (dict_get (extract_file_metadata file_path) "success" (VBool false)) = true.

#[global] Instance has_success_dec file_path : Decision (has_success file_path).
Proof. unfold has_success. apply _. Defined.









End Population.







(** ** A scan, from the paths to the groups *)

Section Scan.
Context `{Interp} `{Host}.



End Scan.


(** ** The deletion loop on any list of paths *)

Section DeletionSafety.
Context `{Interp} `{Host}.



End DeletionSafety.

(** ** Selecting by hand *)


(** ** Artist names are normalised twice *)

